(** * Offline data sync engine (src/wasm/sync_engine.cpp)

    A shallow embedding of the [SyncEngine] class: the two message stores,
    the djb2 fingerprint, the diff, the prefix/suffix delta codec, the
    last-write-wins conflict resolver and the statistics, followed by the
    properties the specification states about them.

    Conventions of the embedding.
    - The file is built with emscripten, so the ABI is wasm32:
      [int], [unsigned long] and [size_t] are 32 bits wide. Machine integers
      are values of [Z]; conversions and wrap-around are written out
      ([to_size_t], [to_int], [to_ulong]).
    - A [std::string] is its sequence of bytes, [list ascii].
    - A [std::unordered_map<int, Message>] is a [gmap Z Message]; a range-for
      over it visits [map_to_list], whose order is as unspecified as the
      bucket order of the C++ container.
    - A member function is a computation in the monad [M]: it receives the
      engine, returns the engine, and either yields a value, throws one of
      the two exceptions of <stdexcept> the code can raise, or runs into
      undefined behaviour (dereferencing a past-the-end iterator).
    - Memory is not modelled: an allocation succeeds. What the 4 GiB
      address space of the target cannot hold (a store with a text of
      [2 ^ 31] characters, of which [addLocalMessage] keeps three copies
      alive, or a store of [2 ^ 31] records) is no input of the code;
      where a statement depends on it, a hypothesis bounds the length. *)

From Stdlib Require Import ZArith Ascii String List Bool Lia.
From stdpp Require Import gmap list strings.

Local Open Scope Z_scope.

Abbreviation str := (list ascii).

(** ** Machine integers of the wasm32 ABI *)

Definition INT_MAX : Z := 2147483647.
Definition INT_MIN : Z := -2147483648.
Definition SIZE_MAX : Z := 4294967295.

(** [std::string::npos], that is [(size_t)-1]. *)
Definition npos : Z := SIZE_MAX.

(** Conversion to [size_t] (also the result of unsigned arithmetic). *)
Definition to_size_t (z : Z) : Z := z mod 2 ^ 32.

(** Conversion to [unsigned long]. *)
Definition to_ulong (z : Z) : Z := z mod 2 ^ 32.

(** Conversion to [int], two's complement (what [i32.add] computes). *)
Definition to_int (z : Z) : Z := (z + 2 ^ 31) mod 2 ^ 32 - 2 ^ 31.

(** ** Results of fallible code *)

Inductive exception := invalid_argument | out_of_range.

Inductive outcome (A : Type) : Type :=
  | Ok (a : A)
  | Throw (e : exception)
  | Undefined.
Arguments Ok {A} a.
Arguments Throw {A} e.
Arguments Undefined {A}.

#[export] Instance outcome_ret : MRet outcome := @Ok.
#[export] Instance outcome_bind : MBind outcome := λ A B f o,
  match o with
  | Ok a => f a
  | Throw e => Throw e
  | Undefined => Undefined
  end.

(** ** std::string *)

(** [s.length()] *)
Definition len (s : str) : Z := Z.of_nat (length s).

(** A string the platform can hold: its length is a [size_t]. *)
Definition representable (s : str) : Prop := len s <= SIZE_MAX.

(** [s[i]] *)
Definition at_ (s : str) (i : Z) : ascii := nth (Z.to_nat i) s zero.

(** [s.substr(pos, count)]; [count] defaults to [npos]. *)
Definition substr (s : str) (pos count : Z) : outcome str :=
  if len s <? pos then Throw out_of_range
  else Ok (take (Z.to_nat (Z.min count (len s - pos))) (drop (Z.to_nat pos) s)).

(** Scan for [c]; [k] is the index of the head of [s] in the whole string. *)
Fixpoint find_scan (c : ascii) (s : str) (k : Z) : Z :=
  match s with
  | [] => npos
  | x :: r => if Ascii.eqb x c then k else find_scan c r (k + 1)
  end.

(** [s.find(c, from)] *)
Definition find (s : str) (c : ascii) (from : Z) : Z :=
  if len s <=? from then npos else find_scan c (drop (Z.to_nat from) s) from.

(** *** std::to_string on an unsigned value *)

Definition digit_char (d : Z) : ascii := ascii_of_N (Z.to_N (48 + d)).

Fixpoint to_string_digits (fuel : nat) (n : Z) : str :=
  match fuel with
  | O => []
  | S f =>
      if n <? 10 then [digit_char n]
      else to_string_digits f (n / 10) ++ [digit_char (n mod 10)]
  end.

(** A number below [2 ^ k] has at most [k] decimal digits. *)
Definition to_string (n : Z) : str :=
  to_string_digits (S (Z.to_nat (Z.log2 n))) n.

(** *** std::stoi (base 10), through [strtol] *)

Definition isspace (c : ascii) : bool :=
  let n := N_of_ascii c in ((n =? 32) || ((9 <=? n) && (n <=? 13)))%N.

Definition isdigit (c : ascii) : bool :=
  let n := N_of_ascii c in ((48 <=? n) && (n <=? 57))%N.

Definition digit_value (c : ascii) : Z := Z.of_N (N_of_ascii c) - 48.

Fixpoint skip_spaces (s : str) : str :=
  match s with
  | c :: r => if isspace c then skip_spaces r else s
  | [] => []
  end.

(** The digits at the head of [s]; [None] when there is none
    ([strtol] leaves [endptr] at the start). *)
Fixpoint read_digits (s : str) (acc : Z) (seen : bool) : option Z :=
  match s with
  | c :: r =>
      if isdigit c then read_digits r (acc * 10 + digit_value c) true
      else if seen then Some acc else None
  | [] => if seen then Some acc else None
  end.

Definition read_sign (s : str) : bool * str :=
  match s with
  | c :: r =>
      if Ascii.eqb c "-" then (true, r)
      else if Ascii.eqb c "+" then (false, r)
      else (false, s)
  | [] => (false, [])
  end.

Definition stoi (s : str) : outcome Z :=
  let '(neg, body) := read_sign (skip_spaces s) in
  match read_digits body 0 false with
  | None => Throw invalid_argument
  | Some v =>
      let r := if neg then - v else v in
      if (r <? INT_MIN) || (INT_MAX <? r) then Throw out_of_range else Ok r
  end.

(** ** The engine *)

Record Message := {
  id : Z;
  content : str;
  timestamp : Z;
  hash : str
}.

Record SyncEngine := {
  localMessages : gmap Z Message;
  remoteMessages : gmap Z Message
}.

(** The constructor [SyncEngine() {}]. *)
Definition new_engine : SyncEngine :=
  {| localMessages := ∅; remoteMessages := ∅ |}.

(** [char] is signed on this target. *)
Definition char_value (c : ascii) : Z :=
  let n := Z.of_N (N_of_ascii c) in if n <? 128 then n else n - 256.

(** [hashMessage]: djb2 over [unsigned long], printed in decimal. *)
Definition hash_step (hash : Z) (c : ascii) : Z :=
  to_ulong (to_ulong (to_ulong (Z.shiftl hash 5) + hash) + char_value c).

Definition hashMessage (content : str) : str :=
  to_string (fold_left hash_step content 5381).

(** The loop that finds the common prefix:
    [while (i < old.length() && i < new.length() && old[i] == new[i]) i++;] *)
Fixpoint prefix_loop (fuel : nat) (oldContent newContent : str) (i : Z) : Z :=
  match fuel with
  | O => i
  | S f =>
      if (i <? len oldContent) && (i <? len newContent)
         && Ascii.eqb (at_ oldContent i) (at_ newContent i)
      then prefix_loop f oldContent newContent (to_size_t (i + 1))
      else i
  end.

(** The loop that finds the common suffix:
    [while (oldEnd > i && newEnd > i && old[oldEnd - 1] == new[newEnd - 1])
       { oldEnd--; newEnd--; }] *)
Fixpoint suffix_loop (fuel : nat) (oldContent newContent : str)
    (i oldEnd newEnd : Z) : Z * Z :=
  match fuel with
  | O => (oldEnd, newEnd)
  | S f =>
      if (i <? oldEnd) && (i <? newEnd)
         && Ascii.eqb (at_ oldContent (to_size_t (oldEnd - 1)))
                      (at_ newContent (to_size_t (newEnd - 1)))
      then suffix_loop f oldContent newContent i
             (to_size_t (oldEnd - 1)) (to_size_t (newEnd - 1))
      else (oldEnd, newEnd)
  end.

(** Lines 143-173 of [generateDelta]: the delta "pos:del:ins" that turns
    [oldContent] into [newContent]. Each loop runs at most
    [oldContent.length()] times, which is the fuel it gets. *)
Definition encodeDelta (oldContent newContent : str) : outcome str :=
  let i := prefix_loop (length oldContent) oldContent newContent 0 in
  let delta := to_string i ++ [":"%char] in
  let '(oldEnd, newEnd) :=
    suffix_loop (length oldContent) oldContent newContent i
      (len oldContent) (len newContent) in
  let delta := delta ++ to_string (to_size_t (oldEnd - i)) ++ [":"%char] in
  ins ← substr newContent i (to_size_t (newEnd - i));
  mret (delta ++ ins).

(** The body of [applyDelta], which reads no member of the engine. *)
Definition decodeDelta (content delta : str) : outcome str :=
  let firstColon := find delta ":" 0 in
  let secondColon := find delta ":" (to_size_t (firstColon + 1)) in
  if (firstColon =? npos) || (secondColon =? npos) then mret content
  else
    field1 ← substr delta 0 firstColon;
    pos ← stoi field1;
    field2 ← substr delta (to_size_t (firstColon + 1))
               (to_size_t (to_size_t (secondColon - firstColon) - 1));
    delCount ← stoi field2;
    insertion ← substr delta (to_size_t (secondColon + 1)) npos;
    head ← substr content 0 (to_size_t pos);
    let result := head ++ insertion in
    let rest := to_size_t (to_int (pos + delCount)) in
    if rest <? len content then
      tail ← substr content rest npos;
      mret (result ++ tail)
    else mret result.

(** *** Iterators of the two maps *)

Inductive container := LocalMessages | RemoteMessages.

#[export] Instance container_eq_dec : EqDecision container.
Proof. solve_decision. Defined.

Definition messages (c : container) (self : SyncEngine) : gmap Z Message :=
  match c with
  | LocalMessages => localMessages self
  | RemoteMessages => remoteMessages self
  end.

(** An iterator knows the map it ranges over and the node it points to;
    past-the-end it points to none. *)
Record iterator := {
  owner : container;
  node : option (Z * Message)
}.

Definition end_of (c : container) : iterator := {| owner := c; node := None |}.

(** How the library represents past-the-end. C++ defines [==] only for
    iterators over the same container. Across two maps the libraries
    differ: libc++ and libstdc++ hold a null node pointer in every
    past-the-end iterator, so any two of them compare equal; a library
    that points past-the-end to a sentinel node of the map itself (MSVC)
    tells them apart. An iterator to an element never equals a
    past-the-end iterator under either. The library of this file's
    target, emscripten, is libc++: [null_node]. *)
Inductive end_repr := null_node | own_sentinel.

Definition iter_eq (lib : end_repr) (a b : iterator) : bool :=
  match node a, node b with
  | None, None =>
      match lib with
      | null_node => true
      | own_sentinel => bool_decide (owner a = owner b)
      end
  | Some p, Some q => bool_decide (owner a = owner b) && bool_decide (p.1 = q.1)
  | _, _ => false
  end.

(** *** The monad of member functions *)

Definition M (A : Type) : Type := SyncEngine → outcome A * SyncEngine.

#[export] Instance M_ret : MRet M := λ A a self, (Ok a, self).
#[export] Instance M_bind : MBind M := λ A B f m self,
  match m self with
  | (Ok a, self') => f a self'
  | (Throw e, self') => (Throw e, self')
  | (Undefined, self') => (Undefined, self')
  end.

(** Code that does not touch the engine. *)
Definition lift {A} (o : outcome A) : M A := λ self, (o, self).

(** [c.find(key)] *)
Definition find_in (c : container) (key : Z) : M iterator := λ self,
  (Ok {| owner := c; node := (λ m, (key, m)) <$> messages c self !! key |}, self).

(** [it->first], [it->second]: undefined past-the-end. *)
Definition deref (it : iterator) : M (Z * Message) := λ self,
  match node it with
  | Some p => (Ok p, self)
  | None => (Undefined, self)
  end.

(** [c.size()] *)
Definition size_of (c : container) : M Z := λ self,
  (Ok (Z.of_nat (size (messages c self))), self).

(** The pairs a range-for over [c] visits. *)
Definition pairs_of (c : container) : M (list (Z * Message)) := λ self,
  (Ok (map_to_list (messages c self)), self).

(** [c[key] = msg] *)
Definition assign (c : container) (key : Z) (msg : Message) : M unit := λ self,
  (Ok (),
   match c with
   | LocalMessages =>
       {| localMessages := <[key := msg]> (localMessages self);
          remoteMessages := remoteMessages self |}
   | RemoteMessages =>
       {| localMessages := localMessages self;
          remoteMessages := <[key := msg]> (remoteMessages self) |}
   end).

(** [c.clear()] *)
Definition clear_map (c : container) : M unit := λ self,
  (Ok (),
   match c with
   | LocalMessages =>
       {| localMessages := ∅; remoteMessages := remoteMessages self |}
   | RemoteMessages =>
       {| localMessages := localMessages self; remoteMessages := ∅ |}
   end).

(** A loop over [l] that carries the local variables [b]. *)
Fixpoint for_each {A B} (body : B → A → M B) (l : list A) (b : B) : M B :=
  match l with
  | [] => mret b
  | x :: r => b' ← body b x; for_each body r b'
  end.

(** *** Values handed to JavaScript *)

(** A field the code never sets is absent from the object. *)
Record DiffResult := {
  added : list Z;
  modified : list Z;
  deleted : list Z
}.

Record ConflictResult := {
  resolved : bool;
  useRemote : option bool;
  winner : option str
}.

Record Stats := {
  localCount : Z;
  remoteCount : Z;
  conflicts : Z
}.

(** *** The member functions *)

Section member_functions.
Variable lib : end_repr.

Definition addLocalMessage (id : Z) (content : str) (timestamp : Z) : M unit :=
  let msg := {| id := id; content := content; timestamp := timestamp;
                hash := hashMessage content |} in
  assign LocalMessages id msg.

Definition addRemoteMessage (id : Z) (content : str) (timestamp : Z) : M unit :=
  let msg := {| id := id; content := content; timestamp := timestamp;
                hash := hashMessage content |} in
  assign RemoteMessages id msg.

(** The body of the first loop of [calculateDiff]. *)
Definition classify_remote (acc : list Z * list Z) (pair : Z * Message)
    : M (list Z * list Z) :=
  let '(added, modified) := acc in
  let id := pair.1 in
  let remoteMsg := pair.2 in
  localIt ← find_in LocalMessages id;
  if iter_eq lib localIt (end_of LocalMessages) then
    mret (added ++ [id], modified)
  else
    l ← deref localIt;
    if bool_decide (hash l.2 ≠ hash remoteMsg) then
      mret (added, modified ++ [id])
    else mret (added, modified).

(** The body of its second loop. *)
Definition classify_local (deleted : list Z) (pair : Z * Message)
    : M (list Z) :=
  let id := pair.1 in
  remoteIt ← find_in RemoteMessages id;
  if iter_eq lib remoteIt (end_of RemoteMessages) then
    mret (deleted ++ [id])
  else mret deleted.

Definition calculateDiff : M DiffResult :=
  remote ← pairs_of RemoteMessages;
  '(added, modified) ← for_each classify_remote remote ([], []);
  local ← pairs_of LocalMessages;
  deleted ← for_each classify_local local [];
  mret {| added := added; modified := modified; deleted := deleted |}.

Definition generateDelta (id : Z) : M str :=
  localIt ← find_in LocalMessages id;
  remoteIt ← find_in RemoteMessages id;
  if iter_eq lib localIt (end_of LocalMessages)
     || iter_eq lib remoteIt (end_of RemoteMessages)
  then mret []
  else
    l ← deref localIt;
    r ← deref remoteIt;
    lift (encodeDelta (content l.2) (content r.2)).

Definition applyDelta (content delta : str) : M str :=
  lift (decodeDelta content delta).

(** The guard compares [remoteIt] with [localMessages.end()], as the
    source does (line 209). *)
Definition resolveConflict (id : Z) : M ConflictResult :=
  localIt ← find_in LocalMessages id;
  remoteIt ← find_in RemoteMessages id;
  if iter_eq lib localIt (end_of LocalMessages)
     || iter_eq lib remoteIt (end_of LocalMessages)
  then mret {| resolved := false; useRemote := None; winner := None |}
  else
    r ← deref remoteIt;
    l ← deref localIt;
    let use_remote := timestamp l.2 <? timestamp r.2 in
    mret {| resolved := true;
            useRemote := Some use_remote;
            winner := Some (if use_remote then content r.2 else content l.2) |}.

(** The body of the loop of [getStats]. The counter is at most the
    number of nodes of [localMessages], which a 32-bit address space
    keeps below [INT_MAX]: the increment cannot overflow. *)
Definition count_conflict (conflicts : Z) (pair : Z * Message) : M Z :=
  let id := pair.1 in
  remoteIt ← find_in RemoteMessages id;
  if negb (iter_eq lib remoteIt (end_of RemoteMessages)) then
    r ← deref remoteIt;
    if bool_decide (hash pair.2 ≠ hash r.2) then mret (conflicts + 1)
    else mret conflicts
  else mret conflicts.

Definition getStats : M Stats :=
  local_size ← size_of LocalMessages;
  remote_size ← size_of RemoteMessages;
  local ← pairs_of LocalMessages;
  conflicts ← for_each count_conflict local 0;
  mret {| localCount := to_int local_size;
          remoteCount := to_int remote_size;
          conflicts := conflicts |}.

Definition clear : M unit :=
  clear_map LocalMessages;; clear_map RemoteMessages.

End member_functions.

(** *** [editDistance] (private, lines 44-63) *)

(** The table [std::vector<std::vector<int>> dp]: [dp[i][j]] and
    [dp[i][j] = v]. The code indexes it within its bounds only. *)
Definition dp_get (dp : list (list Z)) (i j : Z) : Z :=
  nth (Z.to_nat j) (nth (Z.to_nat i) dp []) 0.

Definition dp_set (dp : list (list Z)) (i j v : Z) : list (list Z) :=
  <[Z.to_nat i := <[Z.to_nat j := v]> (nth (Z.to_nat i) dp [])]> dp.

(** The body of the inner loop: the cell [dp[i][j]]. The counters run
    from 1 to [m] and to [n], so [i - 1] and [j - 1] do not wrap. *)
Definition edit_cell (s1 s2 : str) (i : Z) (dp : list (list Z)) (j : Z)
    : list (list Z) :=
  if Ascii.eqb (at_ s1 (to_size_t (i - 1))) (at_ s2 (to_size_t (j - 1)))
  then dp_set dp i j (dp_get dp (i - 1) (j - 1))
  else dp_set dp i j
         (to_int (1 + Z.min (dp_get dp (i - 1) j)
                        (Z.min (dp_get dp i (j - 1))
                               (dp_get dp (i - 1) (j - 1))))).

(** A loop [for (int i = a; i <= b; i++)] visits [seqZ a (b - a + 1)]; the
    code runs it with [b < INT_MAX] only when the texts are shorter than
    [INT_MAX]. *)
Definition editDistance (s1 s2 : str) : Z :=
  let m := to_int (len s1) in
  let n := to_int (len s2) in
  let dp :=
    replicate (Z.to_nat (to_size_t (to_int (m + 1))))
      (replicate (Z.to_nat (to_size_t (to_int (n + 1)))) 0) in
  let dp := foldl (λ dp i, dp_set dp i 0 i) dp (seqZ 0 (m + 1)) in
  let dp := foldl (λ dp j, dp_set dp 0 j j) dp (seqZ 0 (n + 1)) in
  let dp :=
    foldl (λ dp i, foldl (edit_cell s1 s2 i) dp (seqZ 1 n)) dp (seqZ 1 m) in
  dp_get dp m n.

(** ** Notions used by the statements *)

(** A member function that hands the engine back as it received it. *)
Definition readonly {A} (m : M A) : Prop := ∀ self, (m self).2 = self.

(** The operations that change the stores. *)
Inductive mutation :=
  | AddLocal (id : Z) (content : str) (timestamp : Z)
  | AddRemote (id : Z) (content : str) (timestamp : Z)
  | Clear.

Definition perform (op : mutation) : M unit :=
  match op with
  | AddLocal id content timestamp => addLocalMessage id content timestamp
  | AddRemote id content timestamp => addRemoteMessage id content timestamp
  | Clear => clear
  end.

(** The engine after a sequence of calls, first call first. *)
Definition perform_all (ops : list mutation) (self : SyncEngine) : SyncEngine :=
  fold_left (λ self op, (perform op self).2) ops self.

(** Every record of either store carries the hash of its content. *)
Definition fingerprints_ok (self : SyncEngine) : Prop :=
  ∀ c key msg, messages c self !! key = Some msg →
    hash msg = hashMessage (content msg).

(** A string literal as a [std::string]. *)
Definition lit (s : string) : str := list_ascii_of_string s.

(** The stores of the worked scenarios: id 1 holds "hello" (timestamp 100)
    locally and "hallo" (timestamp 200) remotely. *)
Definition scenario : SyncEngine :=
  perform_all [AddLocal 1 (lit "hello") 100; AddRemote 1 (lit "hallo") 200]
    new_engine.

(** Only the local store holds id 1. *)
Definition local_only : SyncEngine :=
  perform_all [AddLocal 1 (lit "hello") 100] new_engine.

(** The pair [p] of one store has no counterpart in the [other] store. *)
Definition absent_from (other : gmap Z Message) (p : Z * Message) : Prop :=
  other !! p.1 = None.

(** The pair [p] has a counterpart in the [other] store and the two
    hashes differ. *)
Definition differs_from (other : gmap Z Message) (p : Z * Message) : Prop :=
  match other !! p.1 with
  | Some o => hash o ≠ hash p.2
  | None => False
  end.

#[export] Instance absent_from_dec other p : Decision (absent_from other p).
Proof. unfold absent_from. apply _. Defined.

#[export] Instance differs_from_dec other p : Decision (differs_from other p).
Proof. unfold differs_from. destruct (other !! p.1); apply _. Defined.

(** The number a string of decimal digits denotes, read left to right
    onto [acc]. *)
Definition decimal_value (s : str) (acc : Z) : Z :=
  fold_left (λ a c, a * 10 + digit_value c) s acc.

(** The wire format of a delta: "pos:del:ins". *)
Definition wire (pos del : Z) (ins : str) : str :=
  to_string pos ++ ":"%char :: to_string del ++ ":"%char :: ins.

(** Lines 192-197 of [applyDelta]: the edit, once the delta is parsed. *)
Definition splice (content : str) (pos delCount : Z) (insertion : str)
    : outcome str :=
  head ← substr content 0 (to_size_t pos);
  let result := head ++ insertion in
  let rest := to_size_t (to_int (pos + delCount)) in
  if rest <? len content then
    tail ← substr content rest npos;
    mret (result ++ tail)
  else mret result.

(** The pair [p] has a counterpart in the [other] store with the same
    hash. *)
Definition unchanged_in (other : gmap Z Message) (p : Z * Message) : Prop :=
  match other !! p.1 with
  | Some o => hash o = hash p.2
  | None => False
  end.

#[export] Instance unchanged_in_dec other p : Decision (unchanged_in other p).
Proof. unfold unchanged_in. destruct (other !! p.1); apply _. Defined.

(** Every record is stored under its own id. *)
Definition ids_ok (self : SyncEngine) : Prop :=
  ∀ c key msg, messages c self !! key = Some msg → id msg = key.

(** The value the table holds at [(i, j)] once filled, by recursion on the
    two indices: the distance between the first [i] characters of [s1]
    and the first [j] characters of [s2]. *)
Fixpoint lev (s1 s2 : str) (i : nat) : nat → Z :=
  match i with
  | O => λ j, Z.of_nat j
  | S i' =>
      fix row (j : nat) : Z :=
        match j with
        | O => Z.of_nat (S i')
        | S j' =>
            if Ascii.eqb (nth i' s1 zero) (nth j' s2 zero)
            then lev s1 s2 i' j'
            else 1 + Z.min (lev s1 s2 i' (S j'))
                       (Z.min (row j') (lev s1 s2 i' j'))
        end
  end.

(** The table has [M + 1] rows of [N + 1] cells. *)
Definition dp_shape (M N : nat) (dp : list (list Z)) : Prop :=
  length dp = S M ∧ ∀ i, (i ≤ M)%nat → length (nth i dp []) = S N.

(** The cells of the region [P] hold their final value. *)
Definition dp_filled (s1 s2 : str) (M N : nat) (dp : list (list Z))
    (P : nat → nat → Prop) : Prop :=
  ∀ a b, (a ≤ M)%nat → (b ≤ N)%nat → P a b →
    dp_get dp (Z.of_nat a) (Z.of_nat b) = lev s1 s2 a b.

(** ** Running the primitives *)

Lemma bind_run {A B} (m : M A) (f : A → M B) self a self' :
  m self = (Ok a, self') → (m ≫= f) self = f a self'.
Proof. intros H. unfold mbind, M_bind. by rewrite H. Qed.

Lemma iter_eq_end lib c o :
  iter_eq lib {| owner := c; node := o |} (end_of c) = bool_decide (o = None).
Proof.
  unfold iter_eq; simpl. destruct o as [p|]; [done|].
  destruct lib; [done|]. by rewrite bool_decide_eq_true_2.
Qed.

Lemma iter_eq_element lib c c' p :
  iter_eq lib {| owner := c; node := Some p |} (end_of c') = false.
Proof. done. Qed.

(** ** Queries leave the engine alone *)

Lemma readonly_ret {A} (a : A) : readonly (mret a).
Proof. by intros self. Qed.

Lemma readonly_bind {A B} (m : M A) (f : A → M B) :
  readonly m → (∀ a, readonly (f a)) → readonly (m ≫= f).
Proof.
  intros Hm Hf self. unfold mbind, M_bind.
  specialize (Hm self). destruct (m self) as [[a|e|] self']; simpl in *; subst;
    [apply Hf|done..].
Qed.

Lemma readonly_lift {A} (o : outcome A) : readonly (lift o).
Proof. by intros self. Qed.

Lemma readonly_find_in c key : readonly (find_in c key).
Proof. by intros self. Qed.

Lemma readonly_deref it : readonly (deref it).
Proof. intros self. unfold deref. by destruct (node it). Qed.

Lemma readonly_size_of c : readonly (size_of c).
Proof. by intros self. Qed.

Lemma readonly_pairs_of c : readonly (pairs_of c).
Proof. by intros self. Qed.

Lemma readonly_if {A} (b : bool) (m1 m2 : M A) :
  readonly m1 → readonly m2 → readonly (if b then m1 else m2).
Proof. by destruct b. Qed.

Lemma readonly_for_each {A B} (body : B → A → M B) l b :
  (∀ b x, readonly (body b x)) → readonly (for_each body l b).
Proof.
  intros Hbody. revert b. induction l as [|x l IH]; intros b; simpl.
  - apply readonly_ret.
  - apply readonly_bind; auto.
Qed.

Create HintDb readonly.
#[export] Hint Resolve readonly_ret readonly_bind readonly_lift readonly_find_in
  readonly_deref readonly_size_of readonly_pairs_of readonly_if
  readonly_for_each : readonly.

Lemma readonly_classify_remote lib acc pair : readonly (classify_remote lib acc pair).
Proof. unfold classify_remote. destruct acc. auto 10 with readonly. Qed.

Lemma readonly_classify_local lib acc pair : readonly (classify_local lib acc pair).
Proof. unfold classify_local. auto 10 with readonly. Qed.

Lemma readonly_count_conflict lib acc pair : readonly (count_conflict lib acc pair).
Proof. unfold count_conflict. auto 10 with readonly. Qed.

#[export] Hint Resolve readonly_classify_remote readonly_classify_local
  readonly_count_conflict : readonly.

Lemma readonly_calculateDiff lib : readonly (calculateDiff lib).
Proof.
  unfold calculateDiff. apply readonly_bind; [auto with readonly|]. intros remote.
  apply readonly_bind; [auto with readonly|]. intros [added modified].
  auto 10 with readonly.
Qed.

Lemma readonly_generateDelta lib id : readonly (generateDelta lib id).
Proof. unfold generateDelta. auto 10 with readonly. Qed.

Lemma readonly_applyDelta content delta : readonly (applyDelta content delta).
Proof. unfold applyDelta. auto with readonly. Qed.

Lemma readonly_getStats lib : readonly (getStats lib).
Proof. unfold getStats. auto 10 with readonly. Qed.

Lemma readonly_resolveConflict lib id : readonly (resolveConflict lib id).
Proof. unfold resolveConflict. auto 10 with readonly. Qed.

(** C10. [calculateDiff], [generateDelta], [applyDelta] and [getStats] are
    read-only: whatever they return or throw, the local and the remote
    store after the call are the stores before it. *)
Theorem queries_read_only lib (self : SyncEngine) id content delta :
  (calculateDiff lib self).2 = self
  ∧ (generateDelta lib id self).2 = self
  ∧ (applyDelta content delta self).2 = self
  ∧ (getStats lib self).2 = self.
Proof.
  split; [apply readonly_calculateDiff|].
  split; [apply readonly_generateDelta|].
  split; [apply readonly_applyDelta|apply readonly_getStats].
Qed.

(** ** The fingerprint of a record *)

Lemma fingerprints_ok_new : fingerprints_ok new_engine.
Proof. intros [] key msg; simpl; by rewrite lookup_empty. Qed.

Lemma fingerprints_ok_perform op self :
  fingerprints_ok self → fingerprints_ok (perform op self).2.
Proof.
  intros Hself. destruct op as [id content timestamp|id content timestamp|];
    intros c key msg; destruct c; simpl;
    rewrite ?lookup_empty; try done; try apply (Hself LocalMessages);
    try apply (Hself RemoteMessages).
  - rewrite lookup_insert. case_decide; [|apply (Hself LocalMessages)].
    by intros [= <-].
  - rewrite lookup_insert. case_decide; [|apply (Hself RemoteMessages)].
    by intros [= <-].
Qed.

Lemma perform_all_snoc ops op self :
  perform_all (ops ++ [op]) self = (perform op (perform_all ops self)).2.
Proof. unfold perform_all. by rewrite fold_left_app. Qed.

(** Every mutation returns normally. *)
Lemma perform_returns op self : (perform op self).1 = Ok ().
Proof. by destruct op. Qed.

(** C7. After any sequence of [addLocalMessage], [addRemoteMessage] and
    [clear] calls on a fresh engine, every record of the local and of the
    remote store has [hash] equal to [hashMessage] of its [content]. *)
Theorem fingerprint_invariant (ops : list mutation) :
  fingerprints_ok (perform_all ops new_engine).
Proof.
  induction ops as [|op ops IH] using rev_ind.
  - apply fingerprints_ok_new.
  - rewrite perform_all_snoc. by apply fingerprints_ok_perform.
Qed.

(** ** Looking an id up in both stores *)

Lemma generateDelta_present lib self id l r :
  localMessages self !! id = Some l →
  remoteMessages self !! id = Some r →
  generateDelta lib id self = (encodeDelta (content l) (content r), self).
Proof.
  intros Hl Hr. unfold generateDelta, mbind, M_bind, find_in; simpl.
  by rewrite Hl, Hr.
Qed.

(** C8. When [id] is missing from the local store or from the remote
    store, [generateDelta(id)] returns the empty string. *)
Theorem generateDelta_missing lib (self : SyncEngine) id :
  localMessages self !! id = None ∨ remoteMessages self !! id = None →
  generateDelta lib id self = (Ok [], self).
Proof.
  intros H. unfold generateDelta, mbind, M_bind, find_in; simpl.
  rewrite !iter_eq_end.
  destruct H as [-> | ->]; simpl; [done|].
  by rewrite orb_true_r.
Qed.

Lemma generateDelta_missing_witness :
  generateDelta null_node 1 local_only = (Ok [], local_only).
Proof. apply (generateDelta_missing null_node local_only 1). right. reflexivity. Defined.

(** An id the local store lacks is never resolved, whatever the library. *)
Lemma resolveConflict_absent_local lib self id :
  localMessages self !! id = None →
  resolveConflict lib id self
  = (Ok {| resolved := false; useRemote := None; winner := None |}, self).
Proof.
  intros H. unfold resolveConflict, mbind, M_bind, find_in; simpl.
  rewrite H; simpl. by rewrite iter_eq_end.
Qed.

(** An id only the remote store lacks passes for unresolved when the two
    past-the-end iterators happen to compare equal. *)
Lemma resolveConflict_absent_remote_null_node self id :
  remoteMessages self !! id = None →
  resolveConflict null_node id self
  = (Ok {| resolved := false; useRemote := None; winner := None |}, self).
Proof.
  intros H. unfold resolveConflict, mbind, M_bind, find_in; simpl.
  rewrite H; simpl. by rewrite orb_true_r.
Qed.

(** Under no library does an id missing from a store come out resolved. *)
Lemma resolveConflict_resolved_present lib self id res self' :
  resolveConflict lib id self = (Ok res, self') → resolved res = true →
  is_Some (localMessages self !! id) ∧ is_Some (remoteMessages self !! id).
Proof.
  unfold resolveConflict, mbind, M_bind, find_in, deref; simpl.
  destruct (localMessages self !! id) as [l|], (remoteMessages self !! id) as [r|];
    destruct lib; simpl; intros [= <- <-]; simpl; by eauto.
Qed.

(** The guard at line 209 compares [remoteIt] with [localMessages.end()],
    not with [remoteMessages.end()] as [generateDelta] does. That is
    harmless with the null node of the target's library. With a library
    whose past-the-end iterators belong to their map it would let an id
    only the local store holds through to the dereference. *)
Lemma resolveConflict_wrong_end_undefined :
  remoteMessages local_only !! 1 = None
  ∧ resolveConflict own_sentinel 1 local_only = (Undefined, local_only).
Proof. split; reflexivity. Qed.

Lemma resolveConflict_present lib self id l r :
  localMessages self !! id = Some l →
  remoteMessages self !! id = Some r →
  resolveConflict lib id self
  = (Ok {| resolved := true;
           useRemote := Some (timestamp l <? timestamp r);
           winner := Some (if timestamp l <? timestamp r
                           then content r else content l) |}, self).
Proof.
  intros Hl Hr. unfold resolveConflict, mbind, M_bind, find_in; simpl.
  by rewrite Hl, Hr.
Qed.

(** C3. With the library of the target ([null_node]), [resolveConflict]
    always returns an object, dereferencing no past-the-end iterator. Its
    [resolved] flag is false exactly when [id] is absent from the local
    store or from the remote store (so it is true only when both stores
    hold [id]), and then no side and no winner are set. *)
Theorem resolveConflict_unresolved_iff_missing (self : SyncEngine) id :
  ∃ res,
    resolveConflict null_node id self = (Ok res, self)
    ∧ (resolved res = false
       ↔ localMessages self !! id = None ∨ remoteMessages self !! id = None)
    ∧ (resolved res = false → useRemote res = None ∧ winner res = None).
Proof.
  destruct (localMessages self !! id) as [l|] eqn:Hl.
  - destruct (remoteMessages self !! id) as [r|] eqn:Hr.
    + eexists. split; [by apply resolveConflict_present|]. simpl.
      split; [|done]. split; [done|]. by intros [?|?].
    + eexists. split; [by apply resolveConflict_absent_remote_null_node|].
      simpl. split; [|done]. split; [by right|done].
  - eexists. split; [by apply resolveConflict_absent_local|]. simpl.
    split; [|done]. split; [by left|done].
Qed.

(** C6. For an id held by both stores [resolveConflict] returns
    [resolved = true], [useRemote = true] exactly when the remote
    timestamp is strictly greater than the local one (a tie selects
    local), and as [winner] the content of the selected side. *)
Theorem resolveConflict_last_write_wins lib (self : SyncEngine) id l r :
  localMessages self !! id = Some l →
  remoteMessages self !! id = Some r →
  resolveConflict lib id self
  = (Ok {| resolved := true;
           useRemote := Some (bool_decide (timestamp l < timestamp r));
           winner := Some (if bool_decide (timestamp l < timestamp r)
                           then content r else content l) |}, self).
Proof.
  intros Hl Hr. rewrite (resolveConflict_present lib self id l r Hl Hr).
  destruct (Z.ltb_spec (timestamp l) (timestamp r)).
  - by rewrite bool_decide_eq_true_2.
  - rewrite bool_decide_eq_false_2; [done|lia].
Qed.

Lemma resolveConflict_last_write_wins_witness :
  resolveConflict null_node 1 scenario
  = (Ok {| resolved := true; useRemote := Some true;
           winner := Some (lit "hallo") |}, scenario).
Proof.
  apply (resolveConflict_last_write_wins null_node scenario 1
           {| id := 1; content := lit "hello"; timestamp := 100;
              hash := hashMessage (lit "hello") |}
           {| id := 1; content := lit "hallo"; timestamp := 200;
              hash := hashMessage (lit "hallo") |}); reflexivity.
Defined.

(** On a tie the local content wins. *)
Lemma resolveConflict_tie lib self id l r :
  localMessages self !! id = Some l →
  remoteMessages self !! id = Some r →
  timestamp l = timestamp r →
  (resolveConflict lib id self).1
  = Ok {| resolved := true; useRemote := Some false; winner := Some (content l) |}.
Proof.
  intros Hl Hr Ht. rewrite (resolveConflict_present lib self id l r Hl Hr).
  by rewrite Ht, Z.ltb_irrefl.
Qed.

(** C9. With "hello" stored locally and "hallo" stored remotely under
    id 1, [generateDelta(1)] returns exactly "1:1:a", and
    [applyDelta("hello", "1:1:a")] returns "hallo". *)
Theorem worked_delta_scenario lib (self : SyncEngine) l r :
  localMessages self !! 1 = Some l → content l = lit "hello" →
  remoteMessages self !! 1 = Some r → content r = lit "hallo" →
  generateDelta lib 1 self = (Ok (lit "1:1:a"), self)
  ∧ applyDelta (lit "hello") (lit "1:1:a") self = (Ok (lit "hallo"), self).
Proof.
  intros Hl Hcl Hr Hcr. split.
  - rewrite (generateDelta_present lib self 1 l r Hl Hr), Hcl, Hcr.
    reflexivity.
  - reflexivity.
Qed.

Lemma worked_delta_scenario_witness :
  generateDelta null_node 1 scenario = (Ok (lit "1:1:a"), scenario)
  ∧ applyDelta (lit "hello") (lit "1:1:a") scenario = (Ok (lit "hallo"), scenario).
Proof.
  apply (worked_delta_scenario null_node scenario
           {| id := 1; content := lit "hello"; timestamp := 100;
              hash := hashMessage (lit "hello") |}
           {| id := 1; content := lit "hallo"; timestamp := 200;
              hash := hashMessage (lit "hallo") |}); reflexivity.
Defined.

(** ** Deltas that do not parse *)

(** A delta with fewer than two colons is handed back as a no-op. *)
Lemma decodeDelta_missing_delimiter content delta :
  find delta ":" 0 = npos
  ∨ find delta ":" (to_size_t (find delta ":" 0 + 1)) = npos →
  decodeDelta content delta = Ok content.
Proof.
  intros H. unfold decodeDelta.
  destruct H as [-> | ->]; simpl; [done|].
  by rewrite orb_true_r.
Qed.

(** C2. Failing input: the delta "x:1:y" has both delimiters and a first
    field that is no number. [applyDelta("abc", "x:1:y")] does not return
    "abc": [std::stoi] throws [std::invalid_argument]. *)
Theorem applyDelta_non_numeric_throws (self : SyncEngine) :
  stoi (lit "x") = Throw invalid_argument
  ∧ applyDelta (lit "abc") (lit "x:1:y") self = (Throw invalid_argument, self).
Proof. split; reflexivity. Qed.

(** ** The diff and the statistics *)

Lemma for_each_cons {A B} (body : B → A → M B) x l b self b' :
  body b x self = (Ok b', self) →
  for_each body (x :: l) b self = for_each body l b' self.
Proof. intros H. simpl. by rewrite (bind_run _ _ _ _ _ H). Qed.

Lemma classify_remote_run lib self added modified id remoteMsg :
  classify_remote lib (added, modified) (id, remoteMsg) self
  = (Ok match localMessages self !! id with
        | None => (added ++ [id], modified)
        | Some localMsg =>
            if bool_decide (hash localMsg ≠ hash remoteMsg)
            then (added, modified ++ [id]) else (added, modified)
        end, self).
Proof.
  unfold classify_remote, mbind, M_bind, find_in, deref; simpl.
  destruct (localMessages self !! id) as [localMsg|]; simpl.
  - by destruct (bool_decide (hash localMsg ≠ hash remoteMsg)).
  - by rewrite iter_eq_end.
Qed.

Lemma classify_local_run lib self deleted id localMsg :
  classify_local lib deleted (id, localMsg) self
  = (Ok match remoteMessages self !! id with
        | None => deleted ++ [id]
        | Some _ => deleted
        end, self).
Proof.
  unfold classify_local, mbind, M_bind, find_in; simpl.
  destruct (remoteMessages self !! id) as [remoteMsg|]; simpl; [done|].
  by rewrite iter_eq_end.
Qed.

Lemma count_conflict_run lib self conflicts id localMsg :
  count_conflict lib conflicts (id, localMsg) self
  = (Ok match remoteMessages self !! id with
        | None => conflicts
        | Some remoteMsg =>
            if bool_decide (hash localMsg ≠ hash remoteMsg)
            then conflicts + 1 else conflicts
        end, self).
Proof.
  unfold count_conflict, mbind, M_bind, find_in, deref; simpl.
  destruct (remoteMessages self !! id) as [remoteMsg|]; simpl.
  - by destruct (bool_decide (hash localMsg ≠ hash remoteMsg)).
  - by rewrite iter_eq_end.
Qed.

Lemma for_each_classify_remote lib self l added modified :
  for_each (classify_remote lib) l (added, modified) self
  = (Ok (added ++ (filter (absent_from (localMessages self)) l).*1,
         modified ++ (filter (differs_from (localMessages self)) l).*1), self).
Proof.
  revert added modified.
  induction l as [|[id remoteMsg] l IH]; intros added modified.
  - simpl. by rewrite !app_nil_r.
  - rewrite (for_each_cons _ _ _ _ _ _ (classify_remote_run _ _ _ _ _ _)).
    destruct (localMessages self !! id) as [localMsg|] eqn:Hid;
      rewrite !filter_cons.
    + rewrite (decide_False (P := absent_from _ _))
        by (unfold absent_from; simpl; congruence).
      destruct (decide (hash localMsg ≠ hash remoteMsg)) as [Hne|Heq].
      * rewrite bool_decide_eq_true_2 by done.
        rewrite (decide_True (P := differs_from _ _))
          by (unfold differs_from; simpl; by rewrite Hid).
        rewrite IH. by rewrite <-app_assoc.
      * rewrite bool_decide_eq_false_2 by done.
        rewrite (decide_False (P := differs_from _ _))
          by (unfold differs_from; simpl; by rewrite Hid).
        apply IH.
    + rewrite (decide_True (P := absent_from _ _)) by done.
      rewrite (decide_False (P := differs_from _ _))
        by (unfold differs_from; simpl; rewrite Hid; tauto).
      rewrite IH. by rewrite <-app_assoc.
Qed.

Lemma for_each_classify_local lib self l deleted :
  for_each (classify_local lib) l deleted self
  = (Ok (deleted ++ (filter (absent_from (remoteMessages self)) l).*1), self).
Proof.
  revert deleted. induction l as [|[id localMsg] l IH]; intros deleted.
  - simpl. by rewrite app_nil_r.
  - rewrite (for_each_cons _ _ _ _ _ _ (classify_local_run _ _ _ _ _)).
    destruct (remoteMessages self !! id) as [remoteMsg|] eqn:Hid;
      rewrite filter_cons.
    + rewrite (decide_False (P := absent_from _ _))
        by (unfold absent_from; simpl; congruence).
      apply IH.
    + rewrite (decide_True (P := absent_from _ _)) by done.
      rewrite IH. by rewrite <-app_assoc.
Qed.

(** [getStats] tests [local.hash != remote.hash], the pair being the local
    one; [differs_from] puts the hash of the counterpart first. *)
Lemma for_each_count_conflict lib self l conflicts :
  for_each (count_conflict lib) l conflicts self
  = (Ok (conflicts
         + Z.of_nat (length (filter (differs_from (remoteMessages self)) l))),
     self).
Proof.
  revert conflicts. induction l as [|[id localMsg] l IH]; intros conflicts.
  - simpl. by rewrite Z.add_0_r.
  - rewrite (for_each_cons _ _ _ _ _ _ (count_conflict_run _ _ _ _ _)).
    destruct (remoteMessages self !! id) as [remoteMsg|] eqn:Hid;
      rewrite filter_cons.
    + destruct (decide (hash localMsg ≠ hash remoteMsg)) as [Hne|Heq].
      * rewrite bool_decide_eq_true_2 by done.
        rewrite (decide_True (P := differs_from _ _))
          by (unfold differs_from; simpl; rewrite Hid; congruence).
        rewrite IH. simpl length. f_equal. f_equal. lia.
      * rewrite bool_decide_eq_false_2 by done.
        rewrite (decide_False (P := differs_from _ _))
          by (unfold differs_from; simpl; rewrite Hid; intros ?; apply Heq;
              congruence).
        apply IH.
    + rewrite (decide_False (P := differs_from _ _))
        by (unfold differs_from; simpl; rewrite Hid; tauto).
      apply IH.
Qed.

(** What [calculateDiff] returns, as filters over the visited pairs. *)
Lemma calculateDiff_run lib self :
  calculateDiff lib self
  = (Ok {| added :=
             (filter (absent_from (localMessages self))
                (map_to_list (remoteMessages self))).*1;
           modified :=
             (filter (differs_from (localMessages self))
                (map_to_list (remoteMessages self))).*1;
           deleted :=
             (filter (absent_from (remoteMessages self))
                (map_to_list (localMessages self))).*1 |}, self).
Proof.
  unfold calculateDiff, mbind at 1, M_bind at 1, pairs_of at 1; simpl.
  unfold mbind at 1, M_bind at 1. rewrite for_each_classify_remote; simpl.
  unfold mbind at 1, M_bind at 1, pairs_of at 1; simpl.
  unfold mbind at 1, M_bind at 1. by rewrite for_each_classify_local.
Qed.

Lemma getStats_run lib self :
  getStats lib self
  = (Ok {| localCount := to_int (Z.of_nat (size (localMessages self)));
           remoteCount := to_int (Z.of_nat (size (remoteMessages self)));
           conflicts :=
             Z.of_nat (length (filter (differs_from (remoteMessages self))
                                 (map_to_list (localMessages self)))) |}, self).
Proof.
  unfold getStats, mbind, M_bind, size_of, pairs_of; simpl.
  by rewrite for_each_count_conflict.
Qed.

Lemma elem_of_filtered_ids (P : Z * Message → Prop) `{!∀ p, Decision (P p)}
    (m : gmap Z Message) id :
  id ∈ (filter P (map_to_list m)).*1 ↔ ∃ msg, m !! id = Some msg ∧ P (id, msg).
Proof.
  rewrite list_elem_of_fmap. split.
  - intros [[id' msg] [-> [HP Hin]%list_elem_of_filter]].
    apply elem_of_map_to_list in Hin. eauto.
  - intros (msg & Hin & HP). exists (id, msg). split; [done|].
    apply list_elem_of_filter. split; [done|]. by apply elem_of_map_to_list.
Qed.

Lemma NoDup_filtered_ids (P : Z * Message → Prop) `{!∀ p, Decision (P p)}
    (m : gmap Z Message) :
  NoDup (filter P (map_to_list m)).*1.
Proof.
  apply (sublist_NoDup _ (map_to_list m).*1).
  - apply NoDup_fst_map_to_list.
  - apply fmap_sublist, sublist_filter.
Qed.

Lemma elem_of_added lib self d id :
  calculateDiff lib self = (Ok d, self) →
  id ∈ added d
  ↔ is_Some (remoteMessages self !! id) ∧ localMessages self !! id = None.
Proof.
  rewrite calculateDiff_run. intros [= <-]; simpl.
  rewrite elem_of_filtered_ids. unfold absent_from, is_Some; simpl.
  split; [intros (msg & ? & ?)|intros [[msg ?] ?]]; eauto.
Qed.

Lemma elem_of_modified lib self d id :
  calculateDiff lib self = (Ok d, self) →
  id ∈ modified d
  ↔ ∃ l r, localMessages self !! id = Some l
           ∧ remoteMessages self !! id = Some r ∧ hash l ≠ hash r.
Proof.
  rewrite calculateDiff_run. intros [= <-]; simpl.
  rewrite elem_of_filtered_ids. unfold differs_from; simpl. split.
  - intros (r & Hr & Hd). destruct (localMessages self !! id) as [l|]; [|done].
    eauto.
  - intros (l & r & Hl & Hr & Hne). exists r. by rewrite Hl.
Qed.

Lemma elem_of_deleted lib self d id :
  calculateDiff lib self = (Ok d, self) →
  id ∈ deleted d
  ↔ is_Some (localMessages self !! id) ∧ remoteMessages self !! id = None.
Proof.
  rewrite calculateDiff_run. intros [= <-]; simpl.
  rewrite elem_of_filtered_ids. unfold absent_from, is_Some; simpl.
  split; [intros (msg & ? & ?)|intros [[msg ?] ?]]; eauto.
Qed.

(** Two facts about the lookup of one id that cannot both hold. *)
Ltac lookup_clash :=
  repeat match goal with
         | H : _ ∧ _ |- _ => destruct H
         | H : ∃ _, _ |- _ => destruct H
         | H : is_Some _ |- _ => destruct H
         end;
  congruence.

(** C4. [calculateDiff] returns three duplicate-free lists of ids:
    [added] holds the ids present in remote and absent from local,
    [modified] the ids present in both whose hashes differ, [deleted] the
    ids present in local and absent from remote. No id is in two of them,
    and an id present in both stores with equal hashes is in none. *)
Theorem calculateDiff_partition lib (self : SyncEngine) :
  ∃ d, calculateDiff lib self = (Ok d, self)
    ∧ (∀ id, id ∈ added d
         ↔ is_Some (remoteMessages self !! id) ∧ localMessages self !! id = None)
    ∧ (∀ id, id ∈ modified d
         ↔ ∃ l r, localMessages self !! id = Some l
                  ∧ remoteMessages self !! id = Some r ∧ hash l ≠ hash r)
    ∧ (∀ id, id ∈ deleted d
         ↔ is_Some (localMessages self !! id) ∧ remoteMessages self !! id = None)
    ∧ (∀ id, ¬ (id ∈ added d ∧ id ∈ modified d)
             ∧ ¬ (id ∈ added d ∧ id ∈ deleted d)
             ∧ ¬ (id ∈ modified d ∧ id ∈ deleted d))
    ∧ (∀ id l r, localMessages self !! id = Some l →
                 remoteMessages self !! id = Some r →
                 hash l = hash r →
                 (id ∉ added d) ∧ (id ∉ modified d) ∧ (id ∉ deleted d))
    ∧ NoDup (added d) ∧ NoDup (modified d) ∧ NoDup (deleted d).
Proof.
  eexists. split; [apply calculateDiff_run|].
  pose proof (calculateDiff_run lib self) as Hrun.
  repeat apply conj.
  - intros id. apply (elem_of_added _ _ _ _ Hrun).
  - intros id. apply (elem_of_modified _ _ _ _ Hrun).
  - intros id. apply (elem_of_deleted _ _ _ _ Hrun).
  - intros id.
    rewrite (elem_of_added _ _ _ _ Hrun), (elem_of_modified _ _ _ _ Hrun),
      (elem_of_deleted _ _ _ _ Hrun).
    repeat split; intros ?; lookup_clash.
  - intros id l r Hl Hr Heq.
    rewrite (elem_of_added _ _ _ _ Hrun), (elem_of_modified _ _ _ _ Hrun),
      (elem_of_deleted _ _ _ _ Hrun).
    repeat split; intros ?; lookup_clash.
  - apply NoDup_filtered_ids.
  - apply NoDup_filtered_ids.
  - apply NoDup_filtered_ids.
Qed.

(** The ids [getStats] counts are the ids [calculateDiff] reports as
    modified, though one loop walks the local store and the other the
    remote one. *)
Lemma conflicting_ids_agree (local remote : gmap Z Message) :
  (filter (differs_from remote) (map_to_list local)).*1
  ≡ₚ (filter (differs_from local) (map_to_list remote)).*1.
Proof.
  apply NoDup_Permutation; [apply NoDup_filtered_ids..|].
  intros id. rewrite !elem_of_filtered_ids. unfold differs_from; simpl. split.
  - intros (l & Hl & Hd). destruct (remote !! id) as [r|]; [|done].
    exists r. rewrite Hl. split; [done|]. by intros ?.
  - intros (r & Hr & Hd). destruct (local !! id) as [l|]; [|done].
    exists l. rewrite Hr. split; [done|]. by intros ?.
Qed.

(** C5. On any engine, the [conflicts] count of [getStats] is the number
    of ids in the [modified] list of [calculateDiff]. *)
Theorem getStats_conflicts_modified lib (self : SyncEngine) :
  ∃ stats d,
    getStats lib self = (Ok stats, self)
    ∧ calculateDiff lib self = (Ok d, self)
    ∧ conflicts stats = Z.of_nat (length (modified d)).
Proof.
  eexists _, _.
  split; [apply getStats_run|]. split; [apply calculateDiff_run|]. simpl.
  f_equal.
  rewrite <-(length_fmap fst (filter _ (map_to_list (localMessages self)))).
  apply Permutation_length, conflicting_ids_agree.
Qed.

(** ** Decimal numbers: [std::to_string] and [std::stoi] *)

Lemma digit_char_cases d :
  0 <= d < 10 →
  isdigit (digit_char d) = true ∧ digit_value (digit_char d) = d.
Proof.
  intros Hd.
  assert (d = 0 ∨ d = 1 ∨ d = 2 ∨ d = 3 ∨ d = 4 ∨ d = 5 ∨ d = 6 ∨ d = 7
          ∨ d = 8 ∨ d = 9) as Hcases by lia.
  repeat (destruct Hcases as [-> | Hcases]; [by vm_compute|]).
  subst d. by vm_compute.
Qed.

Lemma to_string_digits_isdigit fuel n :
  0 <= n → Forall (λ c, isdigit c = true) (to_string_digits fuel n).
Proof.
  revert n. induction fuel as [|fuel IH]; intros n Hn; simpl; [constructor|].
  destruct (Z.ltb_spec n 10).
  - repeat constructor. by apply digit_char_cases.
  - apply Forall_app. split.
    + apply IH. by apply Z.div_pos.
    + repeat constructor. apply digit_char_cases. by apply Z.mod_pos_bound.
Qed.

Lemma to_string_digits_length fuel n :
  (length (to_string_digits fuel n) ≤ fuel)%nat.
Proof.
  revert n. induction fuel as [|fuel IH]; intros n; simpl; [done|].
  destruct (n <? 10); simpl; [lia|].
  rewrite length_app; simpl. specialize (IH (n / 10)). lia.
Qed.

Lemma to_string_digits_nonempty fuel n : to_string_digits (S fuel) n ≠ [].
Proof.
  simpl. destruct (n <? 10); [done|].
  by destruct (to_string_digits fuel (n / 10)).
Qed.

Lemma decimal_value_app s t acc :
  decimal_value (s ++ t) acc = decimal_value t (decimal_value s acc).
Proof. unfold decimal_value. apply fold_left_app. Qed.

(** The fuel [to_string] provides is enough: the digits denote [n]. *)
Lemma decimal_value_to_string_digits fuel n :
  0 <= n < 2 ^ Z.of_nat fuel →
  decimal_value (to_string_digits fuel n) 0 = n.
Proof.
  revert n. induction fuel as [|fuel IH]; intros n Hn.
  - simpl in *. unfold decimal_value; simpl. lia.
  - simpl to_string_digits. destruct (Z.ltb_spec n 10).
    + unfold decimal_value; simpl.
      by rewrite (proj2 (digit_char_cases n ltac:(lia))).
    + rewrite decimal_value_app, IH.
      * unfold decimal_value; simpl.
        rewrite (proj2 (digit_char_cases (n mod 10)
                   (Z.mod_pos_bound n 10 ltac:(lia)))).
        pose proof (Z.div_mod n 10 ltac:(lia)). lia.
      * rewrite Nat2Z.inj_succ, Z.pow_succ_r in Hn by lia.
        split; [apply Z.div_pos; lia|].
        apply Z.div_lt_upper_bound; lia.
Qed.

Lemma to_string_fuel n : 0 <= n → n < 2 ^ Z.of_nat (S (Z.to_nat (Z.log2 n))).
Proof.
  intros Hn. rewrite Nat2Z.inj_succ, Z2Nat.id by apply Z.log2_nonneg.
  destruct (decide (n = 0)) as [->|]; [done|].
  apply Z.log2_spec. lia.
Qed.

Lemma decimal_value_to_string n : 0 <= n → decimal_value (to_string n) 0 = n.
Proof.
  intros Hn. apply decimal_value_to_string_digits.
  split; [done|]. by apply to_string_fuel.
Qed.

Lemma to_string_isdigit n :
  0 <= n → Forall (λ c, isdigit c = true) (to_string n).
Proof. apply to_string_digits_isdigit. Qed.

Lemma to_string_nonempty n : to_string n ≠ [].
Proof. apply to_string_digits_nonempty. Qed.

(** A [size_t] prints in at most 33 characters (in fact ten). *)
Lemma to_string_length n : 0 <= n <= SIZE_MAX → len (to_string n) <= 33.
Proof.
  intros Hn. unfold len, to_string.
  pose proof (to_string_digits_length (S (Z.to_nat (Z.log2 n))) n) as Hlen.
  assert (Z.log2 n <= 32).
  { destruct (decide (n = 0)) as [->|]; [done|].
    transitivity (Z.log2 (2 ^ 32)).
    - apply Z.log2_le_mono. unfold SIZE_MAX in Hn. lia.
    - by rewrite Z.log2_pow2. }
  pose proof (Z.log2_nonneg n). lia.
Qed.

Lemma isdigit_not_space c : isdigit c = true → isspace c = false.
Proof.
  unfold isdigit, isspace. intros H.
  apply andb_true_iff in H as [H1%N.leb_le H2%N.leb_le].
  apply orb_false_iff. split.
  - apply N.eqb_neq. lia.
  - apply andb_false_iff. right. apply N.leb_gt. lia.
Qed.

Lemma isdigit_not_char c c' :
  isdigit c = true → isdigit c' = false → Ascii.eqb c c' = false.
Proof.
  intros H H'. destruct (Ascii.eqb_spec c c') as [->|]; congruence.
Qed.

Lemma read_digits_all s acc seen :
  Forall (λ c, isdigit c = true) s →
  read_digits s acc seen
  = if seen || negb (bool_decide (s = [])) then Some (decimal_value s acc)
    else None.
Proof.
  intros Hs. revert acc seen.
  induction Hs as [|c s Hc Hs IH]; intros acc seen; simpl.
  - by destruct seen.
  - rewrite Hc, IH. simpl. by rewrite orb_true_r.
Qed.

(** [stoi] reads back what [to_string] printed, unless it exceeds [int]. *)
Lemma stoi_to_string n :
  0 <= n →
  stoi (to_string n) = if n <=? INT_MAX then Ok n else Throw out_of_range.
Proof.
  intros Hn. unfold stoi.
  pose proof (to_string_isdigit n Hn) as Hdigits.
  pose proof (to_string_nonempty n) as Hne.
  pose proof (decimal_value_to_string n Hn) as Hval.
  destruct (to_string n) as [|c s] eqn:Hs; [done|].
  pose proof (Forall_inv Hdigits) as Hc. simpl in Hc.
  simpl skip_spaces. rewrite (isdigit_not_space c Hc).
  unfold read_sign. rewrite !(isdigit_not_char c) by done.
  rewrite (read_digits_all _ _ _ Hdigits), Hval. simpl.
  rewrite (proj2 (Z.ltb_ge n INT_MIN)) by (unfold INT_MIN; lia). simpl.
  rewrite Z.ltb_antisym. by destruct (n <=? INT_MAX).
Qed.

(** ** Strings *)

#[local] Arguments Z.to_nat : simpl never.
#[local] Arguments Z.of_nat : simpl never.
#[local] Arguments Z.add : simpl never.
#[local] Arguments Z.sub : simpl never.
#[local] Arguments Z.mul : simpl never.
#[local] Arguments Z.pow : simpl never.
#[local] Arguments Z.modulo : simpl never.
#[local] Arguments Z.min : simpl never.

(** Arithmetic on lengths and on the limits of the ABI. *)
Ltac len_lia :=
  unfold representable, len, npos, INT_MAX, INT_MIN, SIZE_MAX in *; lia.

Lemma len_nonneg (s : str) : 0 <= len s.
Proof. unfold len. lia. Qed.

Lemma len_app (s t : str) : len (s ++ t) = len s + len t.
Proof. unfold len. rewrite length_app. lia. Qed.

Lemma len_cons c (s : str) : len (c :: s) = 1 + len s.
Proof. unfold len. simpl length. lia. Qed.

Lemma to_size_t_small z : 0 <= z <= SIZE_MAX → to_size_t z = z.
Proof. intros Hz. unfold to_size_t. apply Z.mod_small. unfold SIZE_MAX in Hz. lia. Qed.

Lemma to_int_small z : INT_MIN <= z <= INT_MAX → to_int z = z.
Proof.
  intros Hz. unfold to_int, INT_MIN, INT_MAX in *.
  rewrite Z.mod_small; lia.
Qed.

(** [substr] within bounds is a [drop] followed by a [take]. *)
Lemma substr_take_drop (s : str) pos count :
  0 <= pos <= len s → 0 <= count →
  substr s pos count = Ok (take (Z.to_nat count) (drop (Z.to_nat pos) s)).
Proof.
  intros Hpos Hcount. unfold substr, len in *.
  rewrite (proj2 (Z.ltb_ge _ _)) by lia. f_equal.
  destruct (Z.min_spec count (Z.of_nat (length s) - pos)) as [[_ ->]|[Hle ->]];
    [done|].
  rewrite !take_ge; [done|rewrite length_drop; lia..].
Qed.

Lemma substr_to_end (s : str) pos :
  0 <= pos <= len s → len s - pos <= SIZE_MAX →
  substr s pos npos = Ok (drop (Z.to_nat pos) s).
Proof.
  intros Hpos Hrest.
  rewrite substr_take_drop by (unfold npos, SIZE_MAX; lia). f_equal.
  apply take_ge. rewrite length_drop. unfold len, npos in *. lia.
Qed.

Lemma find_scan_skip c (ds rest : str) k :
  Forall (λ x, Ascii.eqb x c = false) ds →
  find_scan c (ds ++ c :: rest) k = k + len ds.
Proof.
  intros Hds. revert k. induction Hds as [|x ds Hx Hds IH]; intros k; simpl.
  - rewrite Ascii.eqb_refl. unfold len; simpl length. lia.
  - rewrite Hx, IH, len_cons. lia.
Qed.

Lemma digits_no_colon (ds : str) :
  Forall (λ c, isdigit c = true) ds →
  Forall (λ x, Ascii.eqb x ":" = false) ds.
Proof.
  intros Hds. eapply Forall_impl; [exact Hds|].
  intros c Hc. by apply isdigit_not_char.
Qed.

(** The first colon of a delta on the wire ends the position. *)
Lemma find_first_colon pos del ins :
  0 <= pos → find (wire pos del ins) ":" 0 = len (to_string pos).
Proof.
  intros Hpos. unfold find, wire.
  rewrite (proj2 (Z.leb_gt _ _)).
  - change (Z.to_nat 0) with 0%nat. rewrite drop_0.
    rewrite find_scan_skip by by apply digits_no_colon, to_string_isdigit.
    lia.
  - rewrite len_app, len_cons.
    pose proof (len_nonneg (to_string pos)).
    pose proof (len_nonneg (to_string del ++ ":"%char :: ins)). lia.
Qed.

(** The second colon ends the delete count. *)
Lemma find_second_colon pos del ins :
  0 <= pos → 0 <= del →
  find (wire pos del ins) ":" (len (to_string pos) + 1)
  = len (to_string pos) + 1 + len (to_string del).
Proof.
  intros Hpos Hdel. unfold find, wire.
  pose proof (len_nonneg (to_string pos)).
  pose proof (len_nonneg (to_string del)).
  pose proof (len_nonneg ins).
  rewrite (proj2 (Z.leb_gt _ _))
    by (rewrite len_app, len_cons, len_app, len_cons; lia).
  replace (Z.to_nat (len (to_string pos) + 1))
    with (length (to_string pos ++ [":"%char]))
    by (rewrite length_app; unfold len; simpl length; lia).
  replace (to_string pos ++ ":"%char :: to_string del ++ ":"%char :: ins)
    with ((to_string pos ++ [":"%char]) ++ to_string del ++ ":"%char :: ins)
    by (by rewrite <-app_assoc).
  rewrite drop_app_length.
  by rewrite find_scan_skip by by apply digits_no_colon, to_string_isdigit.
Qed.

Lemma len_wire pos del ins :
  len (wire pos del ins)
  = len (to_string pos) + 1 + len (to_string del) + 1 + len ins.
Proof. unfold wire. rewrite len_app, len_cons, len_app, len_cons. lia. Qed.

Lemma substr_wire_pos pos del ins :
  substr (wire pos del ins) 0 (len (to_string pos)) = Ok (to_string pos).
Proof.
  pose proof (len_nonneg (to_string pos)). pose proof (len_nonneg ins).
  pose proof (len_nonneg (to_string del)).
  rewrite substr_take_drop by (rewrite ?len_wire; lia).
  change (Z.to_nat 0) with 0%nat. rewrite drop_0.
  replace (Z.to_nat (len (to_string pos))) with (length (to_string pos))
    by (unfold len; lia).
  unfold wire. by rewrite take_app_length.
Qed.

Lemma substr_wire_del pos del ins :
  substr (wire pos del ins) (len (to_string pos) + 1) (len (to_string del))
  = Ok (to_string del).
Proof.
  pose proof (len_nonneg (to_string pos)). pose proof (len_nonneg ins).
  pose proof (len_nonneg (to_string del)).
  rewrite substr_take_drop by (rewrite ?len_wire; lia).
  replace (Z.to_nat (len (to_string pos) + 1))
    with (length (to_string pos ++ [":"%char]))
    by (rewrite length_app; unfold len; simpl length; lia).
  replace (Z.to_nat (len (to_string del))) with (length (to_string del))
    by (unfold len; lia).
  unfold wire.
  replace (to_string pos ++ ":"%char :: to_string del ++ ":"%char :: ins)
    with ((to_string pos ++ [":"%char]) ++ to_string del ++ ":"%char :: ins)
    by (by rewrite <-app_assoc).
  by rewrite drop_app_length, take_app_length.
Qed.

Lemma substr_wire_ins pos del ins :
  len ins <= SIZE_MAX →
  substr (wire pos del ins)
    (len (to_string pos) + 1 + len (to_string del) + 1) npos
  = Ok ins.
Proof.
  intros Hins.
  pose proof (len_nonneg (to_string pos)). pose proof (len_nonneg ins).
  pose proof (len_nonneg (to_string del)).
  rewrite substr_to_end by (rewrite ?len_wire; lia).
  replace (Z.to_nat (len (to_string pos) + 1 + len (to_string del) + 1))
    with (length (to_string pos ++ ":"%char :: to_string del ++ [":"%char]))
    by (rewrite length_app; simpl length; rewrite length_app; unfold len;
        simpl length; lia).
  unfold wire.
  replace (to_string pos ++ ":"%char :: to_string del ++ ":"%char :: ins)
    with ((to_string pos ++ ":"%char :: to_string del ++ [":"%char]) ++ ins)
    by (rewrite <-app_assoc; simpl; by rewrite <-app_assoc).
  by rewrite drop_app_length.
Qed.

(** Parsing a delta on the wire gives its three fields back, up to the
    range of [int]. *)
Lemma decodeDelta_wire content pos del ins :
  0 <= pos <= SIZE_MAX → 0 <= del <= SIZE_MAX → len ins <= SIZE_MAX →
  decodeDelta content (wire pos del ins)
  = (p ← stoi (to_string pos);
     d ← stoi (to_string del);
     splice content p d ins).
Proof.
  intros Hpos Hdel Hins. unfold decodeDelta.
  pose proof (len_nonneg (to_string pos)) as Hp0.
  pose proof (len_nonneg (to_string del)) as Hd0.
  pose proof (to_string_length pos Hpos) as Hp.
  pose proof (to_string_length del Hdel) as Hd.
  rewrite find_first_colon by lia.
  rewrite (to_size_t_small (len (to_string pos) + 1))
    by (unfold SIZE_MAX; lia).
  rewrite find_second_colon by lia.
  rewrite (proj2 (Z.eqb_neq (len (to_string pos)) npos))
    by (unfold npos, SIZE_MAX; lia).
  rewrite (proj2 (Z.eqb_neq (_ + len (to_string del)) npos))
    by (unfold npos, SIZE_MAX; lia).
  cbn [orb].
  rewrite substr_wire_pos. cbn [mbind outcome_bind].
  destruct (stoi (to_string pos)) as [p|e|]; [|done..].
  cbn [mbind outcome_bind].
  replace (len (to_string pos) + 1 + len (to_string del) - len (to_string pos))
    with (len (to_string del) + 1) by lia.
  rewrite (to_size_t_small (len (to_string del) + 1)) by (unfold SIZE_MAX; lia).
  replace (len (to_string del) + 1 - 1) with (len (to_string del)) by lia.
  rewrite (to_size_t_small (len (to_string del))) by (unfold SIZE_MAX; lia).
  rewrite substr_wire_del. cbn [mbind outcome_bind].
  destruct (stoi (to_string del)) as [d|e|]; [|done..].
  cbn [mbind outcome_bind].
  rewrite (to_size_t_small (len (to_string pos) + 1 + len (to_string del) + 1))
    by (unfold SIZE_MAX; lia).
  by rewrite substr_wire_ins.
Qed.

(** ** The two loops of [generateDelta] *)

Lemma at_lookup (s : str) (k : nat) :
  (k < length s)%nat → s !! k = Some (at_ s (Z.of_nat k)).
Proof.
  intros Hk. unfold at_. rewrite Nat2Z.id.
  destruct (nth_lookup_or_length s k zero); [done|lia].
Qed.

(** The prefix loop stops at an index [p] up to which the two strings
    agree, and it stops because its guard fails there, not for want of
    fuel. *)
Lemma prefix_loop_spec fuel (oldContent newContent : str) (k : nat) :
  (k ≤ length oldContent)%nat → (k ≤ length newContent)%nat →
  take k oldContent = take k newContent →
  (length oldContent - k ≤ fuel)%nat →
  len oldContent <= SIZE_MAX →
  ∃ p : nat,
    prefix_loop fuel oldContent newContent (Z.of_nat k) = Z.of_nat p
    ∧ (k ≤ p ≤ length oldContent)%nat ∧ (p ≤ length newContent)%nat
    ∧ take p oldContent = take p newContent
    ∧ (Z.of_nat p <? len oldContent) && (Z.of_nat p <? len newContent)
      && Ascii.eqb (at_ oldContent (Z.of_nat p)) (at_ newContent (Z.of_nat p))
      = false.
Proof.
  revert k. induction fuel as [|fuel IH]; intros k Hko Hkn Htake Hfuel Hrep.
  - exists k. simpl. repeat split; try done; try lia.
    rewrite (proj2 (Z.ltb_ge _ _)); [done|]. unfold len. lia.
  - simpl.
    destruct ((Z.of_nat k <? len oldContent) && (Z.of_nat k <? len newContent)
              && Ascii.eqb (at_ oldContent (Z.of_nat k))
                           (at_ newContent (Z.of_nat k))) eqn:Hguard.
    + apply andb_true_iff in Hguard as [Hguard Hc].
      apply andb_true_iff in Hguard as [Ho%Z.ltb_lt Hn%Z.ltb_lt].
      apply Ascii.eqb_eq in Hc. unfold len in Ho, Hn, Hrep.
      rewrite to_size_t_small by lia.
      replace (Z.of_nat k + 1) with (Z.of_nat (S k)) by lia.
      assert (take (S k) oldContent = take (S k) newContent) as Htake'.
      { rewrite (take_S_r oldContent k (at_ oldContent (Z.of_nat k)))
          by (apply at_lookup; lia).
        rewrite (take_S_r newContent k (at_ newContent (Z.of_nat k)))
          by (apply at_lookup; lia).
        by rewrite Htake, Hc. }
      destruct (IH (S k)) as (p & Hp & ? & ? & ? & ?);
        [lia|lia|done|lia|len_lia|].
      exists p. repeat split; try done; lia.
    + exists k. repeat split; try done; lia.
Qed.

(** The suffix loop stops at two ends from which the two strings agree,
    without crossing the prefix, and again because its guard fails. *)
Lemma suffix_loop_spec fuel (oldContent newContent : str) (k a b : nat) :
  (k ≤ a ≤ length oldContent)%nat → (k ≤ b ≤ length newContent)%nat →
  drop a oldContent = drop b newContent →
  (a - k ≤ fuel)%nat →
  len oldContent <= SIZE_MAX → len newContent <= SIZE_MAX →
  ∃ a' b' : nat,
    suffix_loop fuel oldContent newContent (Z.of_nat k) (Z.of_nat a) (Z.of_nat b)
    = (Z.of_nat a', Z.of_nat b')
    ∧ (k ≤ a' ≤ a)%nat ∧ (k ≤ b' ≤ b)%nat
    ∧ drop a' oldContent = drop b' newContent
    ∧ (Z.of_nat k <? Z.of_nat a') && (Z.of_nat k <? Z.of_nat b')
      && Ascii.eqb (at_ oldContent (to_size_t (Z.of_nat a' - 1)))
                   (at_ newContent (to_size_t (Z.of_nat b' - 1)))
      = false.
Proof.
  revert a b.
  induction fuel as [|fuel IH]; intros a b Ha Hb Hdrop Hfuel Hro Hrn.
  - exists a, b. simpl. repeat split; try done; try lia.
    all: rewrite (proj2 (Z.ltb_ge _ _)); [done|lia].
  - simpl.
    destruct ((Z.of_nat k <? Z.of_nat a) && (Z.of_nat k <? Z.of_nat b)
              && Ascii.eqb (at_ oldContent (to_size_t (Z.of_nat a - 1)))
                           (at_ newContent (to_size_t (Z.of_nat b - 1))))
      eqn:Hguard.
    + apply andb_true_iff in Hguard as [Hguard Hc].
      apply andb_true_iff in Hguard as [Hka%Z.ltb_lt Hkb%Z.ltb_lt].
      apply Ascii.eqb_eq in Hc. unfold len in Hro, Hrn.
      rewrite !to_size_t_small in * by lia.
      replace (Z.of_nat a - 1) with (Z.of_nat (a - 1)) in * by lia.
      replace (Z.of_nat b - 1) with (Z.of_nat (b - 1)) in * by lia.
      assert (drop (a - 1) oldContent = drop (b - 1) newContent) as Hdrop'.
      { rewrite (drop_S oldContent (at_ oldContent (Z.of_nat (a - 1))) (a - 1))
          by (apply at_lookup; lia).
        rewrite (drop_S newContent (at_ newContent (Z.of_nat (b - 1))) (b - 1))
          by (apply at_lookup; lia).
        replace (S (a - 1)) with a by lia. replace (S (b - 1)) with b by lia.
        by rewrite Hdrop, Hc. }
      destruct (IH (a - 1)%nat (b - 1)%nat) as (a' & b' & Hrun & ? & ? & ? & ?);
        [lia|lia|done|lia|len_lia|len_lia|].
      exists a', b'. repeat split; try done; lia.
    + exists a, b. repeat split; try done; lia.
Qed.

(** What [encodeDelta] puts on the wire: the length [p] of a common
    prefix, the number of characters of the old string between that prefix
    and a common suffix, and the characters of the new string between
    them. *)
Lemma encodeDelta_wire (oldContent newContent : str) :
  len oldContent <= SIZE_MAX → len newContent <= SIZE_MAX →
  ∃ p a b : nat,
    encodeDelta oldContent newContent
    = Ok (wire (Z.of_nat p) (Z.of_nat (a - p))
            (take (b - p) (drop p newContent)))
    ∧ (p ≤ a ≤ length oldContent)%nat ∧ (p ≤ b ≤ length newContent)%nat
    ∧ take p oldContent = take p newContent
    ∧ drop a oldContent = drop b newContent.
Proof.
  intros Hro Hrn. unfold encodeDelta.
  destruct (prefix_loop_spec (length oldContent) oldContent newContent 0)
    as (p & Hp & Hpo & Hpn & Htake & _); [lia|lia|done|lia|done|].
  change (Z.of_nat 0) with 0 in Hp. rewrite Hp.
  destruct (suffix_loop_spec (length oldContent) oldContent newContent p
              (length oldContent) (length newContent))
    as (a & b & Hs & Ha & Hb & Hdrop & _);
    [lia|lia|by rewrite !drop_all|lia|done|done|].
  unfold len at 1 2. rewrite Hs.
  exists p, a, b. repeat split; try done; try lia.
  unfold len in Hro, Hrn.
  rewrite !to_size_t_small by lia.
  rewrite substr_take_drop by (unfold len; lia).
  cbn [mbind outcome_bind mret outcome_ret]. f_equal. unfold wire.
  rewrite Nat2Z.id.
  replace (Z.of_nat a - Z.of_nat p) with (Z.of_nat (a - p)) by lia.
  replace (Z.to_nat (Z.of_nat b - Z.of_nat p)) with (b - p)%nat by lia.
  by rewrite <-!app_assoc.
Qed.

(** ** The round trip *)

Lemma splice_roundtrip (oldContent newContent : str) (p a b : nat) :
  len oldContent <= INT_MAX →
  (p ≤ a ≤ length oldContent)%nat → (p ≤ b ≤ length newContent)%nat →
  take p oldContent = take p newContent →
  drop a oldContent = drop b newContent →
  splice oldContent (Z.of_nat p) (Z.of_nat (a - p))
    (take (b - p) (drop p newContent))
  = Ok newContent.
Proof.
  intros Hint Ha Hb Htake Hdrop. unfold splice.
  rewrite (to_size_t_small (Z.of_nat p)) by len_lia.
  rewrite (substr_take_drop oldContent 0 (Z.of_nat p)) by len_lia.
  change (Z.to_nat 0) with 0%nat. rewrite drop_0, Nat2Z.id.
  cbn [mbind outcome_bind].
  replace (Z.of_nat p + Z.of_nat (a - p)) with (Z.of_nat a) by lia.
  rewrite to_int_small by len_lia.
  rewrite to_size_t_small by len_lia.
  assert (take p oldContent ++ take (b - p) (drop p newContent)
          ++ drop a oldContent = newContent) as Hnew.
  { rewrite Htake, Hdrop.
    rewrite <-(take_drop p newContent) at 4.
    f_equal.
    rewrite <-(take_drop (b - p) (drop p newContent)) at 2.
    f_equal. rewrite drop_drop. f_equal. lia. }
  destruct (Z.ltb_spec (Z.of_nat a) (len oldContent)) as [Hlt|Hge].
  - rewrite substr_to_end by len_lia.
    cbn [mbind outcome_bind mret outcome_ret].
    by rewrite Nat2Z.id, <-app_assoc, Hnew.
  - cbn [mret outcome_ret]. f_equal.
    rewrite <-Hnew at 2. rewrite (drop_ge oldContent a) by len_lia.
    by rewrite app_nil_r.
Qed.

(** The codec on strings: decoding the delta of ([oldContent],
    [newContent]) against [oldContent] gives [newContent], for an old
    string whose length fits [int]. *)
Lemma codec_roundtrip (oldContent newContent : str) :
  len oldContent <= INT_MAX → representable newContent →
  ∃ delta, encodeDelta oldContent newContent = Ok delta
           ∧ decodeDelta oldContent delta = Ok newContent.
Proof.
  intros Hint Hrep.
  destruct (encodeDelta_wire oldContent newContent)
    as (p & a & b & Henc & Ha & Hb & Htake & Hdrop); [len_lia|done|].
  eexists. split; [exact Henc|].
  rewrite decodeDelta_wire.
  - rewrite !stoi_to_string by lia.
    rewrite !(proj2 (Z.leb_le _ INT_MAX)) by len_lia.
    cbn [mbind outcome_bind].
    by apply splice_roundtrip.
  - len_lia.
  - len_lia.
  - unfold len. rewrite length_take, length_drop. len_lia.
Qed.

(** With the fuel [encodeDelta] gives them, both loops end because their
    guard fails. *)
Lemma encodeDelta_loops_exit (oldContent newContent : str) :
  representable oldContent → representable newContent →
  let i := prefix_loop (length oldContent) oldContent newContent 0 in
  let ends := suffix_loop (length oldContent) oldContent newContent i
                (len oldContent) (len newContent) in
  (i <? len oldContent) && (i <? len newContent)
  && Ascii.eqb (at_ oldContent i) (at_ newContent i) = false
  ∧ (i <? ends.1) && (i <? ends.2)
    && Ascii.eqb (at_ oldContent (to_size_t (ends.1 - 1)))
                 (at_ newContent (to_size_t (ends.2 - 1))) = false.
Proof.
  intros Hro Hrn.
  destruct (prefix_loop_spec (length oldContent) oldContent newContent 0)
    as (p & Hp & Hpo & Hpn & Htake & Hexit); [lia|lia|done|lia|done|].
  change (Z.of_nat 0) with 0 in Hp. cbv zeta. rewrite Hp.
  destruct (suffix_loop_spec (length oldContent) oldContent newContent p
              (length oldContent) (length newContent))
    as (a & b & Hs & Ha & Hb & Hdrop & Hexit');
    [lia|lia|by rewrite !drop_all|lia|done|done|].
  split; [done|].
  change (len oldContent) with (Z.of_nat (length oldContent)).
  change (len newContent) with (Z.of_nat (length newContent)).
  by rewrite Hs.
Qed.

(** The edge cases on small texts. *)
Example roundtrip_empty_old :
  encodeDelta (lit "") (lit "abc") = Ok (lit "0:0:abc")
  ∧ decodeDelta (lit "") (lit "0:0:abc") = Ok (lit "abc").
Proof. split; reflexivity. Qed.

Example roundtrip_empty_new :
  encodeDelta (lit "abc") (lit "") = Ok (lit "0:3:")
  ∧ decodeDelta (lit "abc") (lit "0:3:") = Ok (lit "").
Proof. split; reflexivity. Qed.

Example roundtrip_identical :
  encodeDelta (lit "abc") (lit "abc") = Ok (lit "3:0:")
  ∧ decodeDelta (lit "abc") (lit "3:0:") = Ok (lit "abc").
Proof. split; reflexivity. Qed.

Example roundtrip_replaced :
  encodeDelta (lit "abc") (lit "xyz") = Ok (lit "0:3:xyz")
  ∧ decodeDelta (lit "abc") (lit "0:3:xyz") = Ok (lit "xyz").
Proof. split; reflexivity. Qed.

(** The inserted text may hold colons and digits. *)
Example roundtrip_colon :
  encodeDelta (lit "a") (lit "a:1:b") = Ok (lit "1:0::1:b")
  ∧ decodeDelta (lit "a") (lit "1:0::1:b") = Ok (lit "a:1:b").
Proof. split; reflexivity. Qed.

(** C1. Round trip of the delta codec: when [id] is in both stores,
    [generateDelta(id)] returns a delta, and [applyDelta] of the local
    content and that delta returns exactly the remote content. Empty old
    text, empty new text, equal texts and wholly different texts are
    included. The two hypotheses on the lengths hold of every text a
    store of the target holds: to store a text, [addLocalMessage] and
    [addRemoteMessage] keep three copies of it alive (the argument,
    [msg.content] and the record of the map), which 4 GiB allow only for
    fewer than [2 ^ 32 / 3 < INT_MAX] characters. *)
Theorem delta_roundtrip lib (self : SyncEngine) id l r :
  localMessages self !! id = Some l →
  remoteMessages self !! id = Some r →
  len (content l) <= INT_MAX →
  representable (content r) →
  ∃ delta,
    generateDelta lib id self = (Ok delta, self)
    ∧ applyDelta (content l) delta self = (Ok (content r), self).
Proof.
  intros Hl Hr Hint Hrep.
  destruct (codec_roundtrip (content l) (content r) Hint Hrep)
    as (delta & Henc & Hdec).
  exists delta. split.
  - by rewrite (generateDelta_present lib self id l r Hl Hr), Henc.
  - unfold applyDelta, lift. by rewrite Hdec.
Qed.

Lemma delta_roundtrip_witness :
  ∃ delta,
    generateDelta null_node 1 scenario = (Ok delta, scenario)
    ∧ applyDelta (lit "hello") delta scenario = (Ok (lit "hallo"), scenario).
Proof.
  apply (delta_roundtrip null_node scenario 1
           {| id := 1; content := lit "hello"; timestamp := 100;
              hash := hashMessage (lit "hello") |}
           {| id := 1; content := lit "hallo"; timestamp := 200;
              hash := hashMessage (lit "hallo") |});
    [reflexivity | reflexivity | vm_compute; discriminate
    | vm_compute; discriminate].
Defined.

(** *** Emptying a text *)

Lemma prefix_loop_nil fuel (oldContent : str) :
  prefix_loop fuel oldContent [] 0 = 0.
Proof.
  destruct fuel; [done|]. cbn [prefix_loop].
  change (0 <? len []) with false. by rewrite andb_false_r.
Qed.

Lemma suffix_loop_nil fuel (oldContent : str) oldEnd :
  suffix_loop fuel oldContent [] 0 oldEnd (len []) = (oldEnd, 0).
Proof.
  destruct fuel; [done|]. cbn [suffix_loop].
  change (0 <? len []) with false. by rewrite andb_false_r.
Qed.

(** The delta that empties a text deletes all of it. *)
Lemma encodeDelta_to_empty (oldContent : str) :
  representable oldContent →
  encodeDelta oldContent [] = Ok (wire 0 (len oldContent) []).
Proof.
  intros Hrep. unfold encodeDelta.
  rewrite prefix_loop_nil, suffix_loop_nil.
  change (substr [] 0 (to_size_t (0 - 0))) with (Ok ([] : str)).
  cbn [mbind outcome_bind mret outcome_ret].
  rewrite Z.sub_0_r, to_size_t_small by (pose proof (len_nonneg oldContent); len_lia).
  unfold wire. by rewrite <-!app_assoc.
Qed.

(** ** [applyDelta] on any delta *)

(** Arithmetic on positions, lengths kept abstract. *)
Ltac size_lia := unfold npos, SIZE_MAX, INT_MAX, INT_MIN in *; lia.

Lemma find_scan_none c (s : str) k :
  Forall (λ x, Ascii.eqb x c = false) s → find_scan c s k = npos.
Proof.
  intros Hs. revert k. induction Hs as [|x s Hx Hs IH]; intros k; simpl; [done|].
  by rewrite Hx.
Qed.

Lemma not_elem_of_eqb c (s : str) :
  c ∉ s → Forall (λ x, Ascii.eqb x c = false) s.
Proof.
  intros Hc. apply Forall_forall. intros x Hx.
  destruct (Ascii.eqb_spec x c) as [->|]; [done|done].
Qed.

Lemma filter_eq_nil_not_elem_of c (s : str) :
  filter (λ x, x = c) s = [] → c ∉ s.
Proof. intros Hf Hc. by apply (filter_nil_not_elem_of _ _ c Hf). Qed.

(** The fields of a delta with two delimiters: the text before the first
    colon, the text between the first two colons, and all the rest, colons
    included. *)
Lemma decodeDelta_fields content (field1 field2 ins : str) :
  ":"%char ∉ field1 → ":"%char ∉ field2 →
  representable (field1 ++ ":"%char :: field2 ++ ":"%char :: ins) →
  decodeDelta content (field1 ++ ":"%char :: field2 ++ ":"%char :: ins)
  = (p ← stoi field1; d ← stoi field2; splice content p d ins).
Proof.
  intros H1%not_elem_of_eqb H2%not_elem_of_eqb Hrep.
  unfold representable in Hrep.
  rewrite len_app, len_cons, len_app, len_cons in Hrep.
  pose proof (len_nonneg field1). pose proof (len_nonneg field2).
  pose proof (len_nonneg ins).
  assert (len (field1 ++ ":"%char :: field2 ++ ":"%char :: ins)
          = len field1 + 1 + len field2 + 1 + len ins) as Hlen
    by (rewrite len_app, len_cons, len_app, len_cons; lia).
  assert (field1 ++ ":"%char :: field2 ++ ":"%char :: ins
          = (field1 ++ [":"%char]) ++ field2 ++ ":"%char :: ins) as Hsplit1
    by (by rewrite <-app_assoc).
  assert (field1 ++ ":"%char :: field2 ++ ":"%char :: ins
          = (field1 ++ ":"%char :: field2 ++ [":"%char]) ++ ins) as Hsplit2
    by (rewrite <-app_assoc; simpl; by rewrite <-app_assoc).
  assert (Z.to_nat (len field1 + 1) = length (field1 ++ [":"%char])) as Hn1
    by (rewrite length_app; unfold len; simpl length; lia).
  assert (Z.to_nat (len field1 + 1 + len field2 + 1)
          = length (field1 ++ ":"%char :: field2 ++ [":"%char])) as Hn2
    by (rewrite length_app; simpl length; rewrite length_app; unfold len;
        simpl length; lia).
  assert (find (field1 ++ ":"%char :: field2 ++ ":"%char :: ins) ":" 0
          = len field1) as Hfirst.
  { unfold find. rewrite (proj2 (Z.leb_gt _ _)) by size_lia.
    change (Z.to_nat 0) with 0%nat. rewrite drop_0, find_scan_skip by done. lia. }
  assert (find (field1 ++ ":"%char :: field2 ++ ":"%char :: ins) ":"
            (len field1 + 1) = len field1 + 1 + len field2) as Hsecond.
  { unfold find. rewrite (proj2 (Z.leb_gt _ _)) by size_lia.
    rewrite Hn1, Hsplit1 at 1. rewrite drop_app_length.
    by rewrite find_scan_skip by done. }
  unfold decodeDelta.
  rewrite Hfirst, (to_size_t_small (len field1 + 1)) by size_lia.
  rewrite Hsecond.
  rewrite (proj2 (Z.eqb_neq (len field1) npos)) by size_lia.
  rewrite (proj2 (Z.eqb_neq (_ + len field2) npos)) by size_lia.
  cbn [orb].
  rewrite (substr_take_drop _ 0 (len field1)) by size_lia.
  change (Z.to_nat 0) with 0%nat. rewrite drop_0.
  replace (Z.to_nat (len field1)) with (length field1) by (unfold len; lia).
  rewrite take_app_length. cbn [mbind outcome_bind].
  destruct (stoi field1) as [p|e|]; [|done..]. cbn [mbind outcome_bind].
  replace (len field1 + 1 + len field2 - len field1) with (len field2 + 1)
    by lia.
  rewrite (to_size_t_small (len field2 + 1)) by size_lia.
  replace (len field2 + 1 - 1) with (len field2) by lia.
  rewrite (to_size_t_small (len field2)) by size_lia.
  rewrite (substr_take_drop _ (len field1 + 1) (len field2)) by size_lia.
  rewrite Hn1, Hsplit1 at 1. rewrite drop_app_length.
  replace (Z.to_nat (len field2)) with (length field2) by (unfold len; lia).
  rewrite take_app_length. cbn [mbind outcome_bind].
  destruct (stoi field2) as [d|e|]; [|done..]. cbn [mbind outcome_bind].
  rewrite (to_size_t_small (len field1 + 1 + len field2 + 1)) by size_lia.
  rewrite (substr_to_end _ (len field1 + 1 + len field2 + 1)) by size_lia.
  rewrite Hn2, Hsplit2 at 1. by rewrite drop_app_length.
Qed.

Lemma find_absent (s : str) c from : c ∉ s → find s c from = npos.
Proof.
  intros Hc. unfold find. destruct (len s <=? from); [done|].
  apply find_scan_none, not_elem_of_eqb.
  intros Hin. apply Hc. eapply elem_of_sublist; [exact Hin|apply sublist_drop].
Qed.

(** X1. A delta holding fewer than two colons is a no-op: [applyDelta]
    returns [content] unchanged, throws nothing and leaves the engine as it
    was. *)
Theorem applyDelta_few_delimiters (content delta : str) (self : SyncEngine) :
  representable delta →
  (length (filter (λ c, c = ":"%char) delta) < 2)%nat →
  applyDelta content delta self = (Ok content, self).
Proof.
  intros Hrep Hcount. unfold applyDelta, lift. f_equal.
  apply decodeDelta_missing_delimiter.
  destruct (decide (":"%char ∈ delta)) as [Hin|Hnot];
    [|left; by apply find_absent].
  right.
  apply list_elem_of_split_l in Hin as (l1 & l2 & -> & Hl1).
  rewrite filter_app, filter_cons_True, length_app in Hcount by done.
  simpl length in Hcount.
  assert (":"%char ∉ l2) as Hl2.
  { apply filter_eq_nil_not_elem_of.
    destruct (filter (λ c, c = ":"%char) l2); [done|simpl in Hcount; lia]. }
  unfold representable in Hrep. rewrite len_app, len_cons in Hrep.
  pose proof (len_nonneg l1). pose proof (len_nonneg l2).
  assert (find (l1 ++ ":"%char :: l2) ":" 0 = len l1) as ->.
  { unfold find. rewrite (proj2 (Z.leb_gt _ _)) by (rewrite len_app, len_cons; lia).
    change (Z.to_nat 0) with 0%nat.
    rewrite drop_0, find_scan_skip by by apply not_elem_of_eqb. lia. }
  rewrite to_size_t_small by size_lia.
  unfold find. destruct (_ <=? _); [done|].
  replace (Z.to_nat (len l1 + 1)) with (length (l1 ++ [":"%char]))
    by (rewrite length_app; unfold len; simpl length; lia).
  rewrite (cons_middle _ l1 l2), app_assoc, drop_app_length.
  by apply find_scan_none, not_elem_of_eqb.
Qed.

Lemma applyDelta_few_delimiters_witness :
  applyDelta (lit "abc") (lit "not-a-delta:") new_engine
  = (Ok (lit "abc"), new_engine).
Proof.
  apply (applyDelta_few_delimiters (lit "abc") (lit "not-a-delta:") new_engine);
    [vm_compute; discriminate | vm_compute; lia].
Defined.

(** X2. With two delimiters in place, [applyDelta] hands on whatever
    [std::stoi] throws on the text before the first colon, or, that text
    read, on the text between the first two colons. *)
Theorem applyDelta_propagates_stoi (content field1 field2 ins : str)
    (self : SyncEngine) e :
  ":"%char ∉ field1 → ":"%char ∉ field2 →
  representable (field1 ++ ":"%char :: field2 ++ ":"%char :: ins) →
  stoi field1 = Throw e ∨ (∃ p, stoi field1 = Ok p ∧ stoi field2 = Throw e) →
  applyDelta content (field1 ++ ":"%char :: field2 ++ ":"%char :: ins) self
  = (Throw e, self).
Proof.
  intros H1 H2 Hrep Hstoi. unfold applyDelta, lift.
  rewrite decodeDelta_fields by done.
  by destruct Hstoi as [-> | (p & -> & ->)].
Qed.

Lemma applyDelta_propagates_stoi_witness :
  applyDelta (lit "abc") (lit "1::x") new_engine
  = (Throw invalid_argument, new_engine).
Proof.
  apply (applyDelta_propagates_stoi (lit "abc") (lit "1") (lit "") (lit "x")
           new_engine invalid_argument).
  - by apply (bool_decide_unpack _); vm_compute.
  - by apply (bool_decide_unpack _); vm_compute.
  - vm_compute. discriminate.
  - right. exists 1. split; reflexivity.
Defined.

Lemma splice_in_range (content ins : str) p d :
  0 <= p → 0 <= d → p + d <= INT_MAX → representable content →
  splice content p d ins
  = Ok (take (Z.to_nat p) content ++ ins ++ drop (Z.to_nat (p + d)) content).
Proof.
  intros Hp Hd Hsum Hrep. unfold splice, representable in *.
  pose proof (len_nonneg content).
  rewrite (to_size_t_small p) by size_lia.
  rewrite (substr_take_drop content 0 p) by size_lia.
  change (Z.to_nat 0) with 0%nat. rewrite drop_0.
  cbn [mbind outcome_bind].
  rewrite to_int_small by size_lia.
  rewrite to_size_t_small by size_lia.
  destruct (Z.ltb_spec (p + d) (len content)) as [Hlt|Hge].
  - rewrite substr_to_end by size_lia.
    cbn [mbind outcome_bind mret outcome_ret]. by rewrite <-app_assoc.
  - cbn [mret outcome_ret].
    rewrite (drop_ge content) by (unfold len in Hge; lia).
    by rewrite app_nil_r.
Qed.

(** X3. A delta whose two fields read as [p] and [d], both non-negative
    with [p + d] within [int], replaces the [d] characters of [content]
    from position [p] by the rest of the delta; a range that runs past the
    end of [content] is cut there. *)
Theorem applyDelta_replaces_range (content field1 field2 ins : str)
    (self : SyncEngine) p d :
  ":"%char ∉ field1 → ":"%char ∉ field2 →
  representable (field1 ++ ":"%char :: field2 ++ ":"%char :: ins) →
  representable content →
  stoi field1 = Ok p → stoi field2 = Ok d →
  0 <= p → 0 <= d → p + d <= INT_MAX →
  applyDelta content (field1 ++ ":"%char :: field2 ++ ":"%char :: ins) self
  = (Ok (take (Z.to_nat p) content ++ ins ++ drop (Z.to_nat (p + d)) content),
     self).
Proof.
  intros H1 H2 Hrep Hcontent Hs1 Hs2 Hp Hd Hsum. unfold applyDelta, lift.
  rewrite decodeDelta_fields, Hs1, Hs2 by done. cbn [mbind outcome_bind].
  by rewrite splice_in_range.
Qed.

Lemma applyDelta_replaces_range_witness :
  applyDelta (lit "hello") (lit " 1:+9:a:b") new_engine
  = (Ok (lit "ha:b"), new_engine).
Proof.
  apply (applyDelta_replaces_range (lit "hello") (lit " 1") (lit "+9")
           (lit "a:b") new_engine 1 9).
  - by apply (bool_decide_unpack _); vm_compute.
  - by apply (bool_decide_unpack _); vm_compute.
  - vm_compute. discriminate.
  - vm_compute. discriminate.
  - reflexivity.
  - reflexivity.
  - lia.
  - lia.
  - vm_compute. discriminate.
Defined.

(** X4. A position or a delete count printed by [std::to_string] that
    exceeds [INT_MAX] makes [applyDelta] throw [std::out_of_range],
    whatever the content. *)
Theorem applyDelta_field_beyond_int (content ins : str) (self : SyncEngine) p d :
  0 <= p <= SIZE_MAX → 0 <= d <= SIZE_MAX → len ins <= SIZE_MAX →
  INT_MAX < p ∨ INT_MAX < d →
  applyDelta content (wire p d ins) self = (Throw out_of_range, self).
Proof.
  intros Hp Hd Hins Hbig. unfold applyDelta, lift.
  rewrite decodeDelta_wire by done.
  rewrite !stoi_to_string by lia.
  destruct (Z.leb_spec p INT_MAX) as [Hple|Hpgt]; [|done].
  cbn [mbind outcome_bind].
  destruct (Z.leb_spec d INT_MAX) as [Hdle|Hdgt]; [lia|done].
Qed.

Lemma applyDelta_field_beyond_int_witness :
  applyDelta (lit "abc") (lit "2147483648:0:x") new_engine
  = (Throw out_of_range, new_engine).
Proof.
  apply (applyDelta_field_beyond_int (lit "abc") (lit "x") new_engine
           2147483648 0); [unfold SIZE_MAX; lia | unfold SIZE_MAX; lia
           | vm_compute; discriminate | left; unfold INT_MAX; lia].
Defined.

(** ** What [generateDelta] writes *)

Lemma at_app_l (s t : str) (k : nat) :
  (k < length s)%nat → at_ (s ++ t) (Z.of_nat k) = at_ s (Z.of_nat k).
Proof. intros Hk. unfold at_. rewrite Nat2Z.id. by apply app_nth1. Qed.

Lemma suffix_loop_stop fuel (oldContent newContent : str) i oldEnd newEnd :
  oldEnd <= i ∨ newEnd <= i →
  suffix_loop fuel oldContent newContent i oldEnd newEnd = (oldEnd, newEnd).
Proof.
  intros Hstop. destruct fuel; [done|]. cbn [suffix_loop].
  destruct Hstop as [H|H]; apply Z.ltb_ge in H; rewrite H;
    by rewrite ?andb_false_r.
Qed.

(** The prefix loop walks to the end of a text that begins the other. *)
Lemma prefix_loop_prefix_l (s t : str) :
  representable s → prefix_loop (length s) s (s ++ t) 0 = len s.
Proof.
  intros Hrep.
  destruct (prefix_loop_spec (length s) s (s ++ t) 0)
    as (p & Hp & Hps & Hpn & _ & Hexit); [lia|lia|done|lia|done|].
  change (Z.of_nat 0) with 0 in Hp. rewrite Hp. unfold len. f_equal.
  destruct (decide (p = length s)) as [|Hne]; [done|].
  rewrite at_app_l, Ascii.eqb_refl in Hexit by lia.
  rewrite !(proj2 (Z.ltb_lt _ _)) in Hexit; [done|..];
    unfold len; rewrite ?length_app; lia.
Qed.

Lemma prefix_loop_prefix_r (s t : str) :
  representable (s ++ t) → prefix_loop (length (s ++ t)) (s ++ t) s 0 = len s.
Proof.
  intros Hrep.
  destruct (prefix_loop_spec (length (s ++ t)) (s ++ t) s 0)
    as (p & Hp & Hps & Hpn & _ & Hexit); [lia|lia|done|lia|done|].
  change (Z.of_nat 0) with 0 in Hp. rewrite Hp. unfold len. f_equal.
  destruct (decide (p = length s)) as [|Hne]; [done|].
  rewrite at_app_l, Ascii.eqb_refl in Hexit by lia.
  rewrite !(proj2 (Z.ltb_lt _ _)) in Hexit; [done|..];
    unfold len; rewrite ?length_app; lia.
Qed.

Lemma encodeDelta_append (s t : str) :
  representable (s ++ t) → encodeDelta s (s ++ t) = Ok (wire (len s) 0 t).
Proof.
  intros Hrep. unfold representable in Hrep. rewrite len_app in Hrep.
  pose proof (len_nonneg s). pose proof (len_nonneg t).
  unfold encodeDelta.
  rewrite prefix_loop_prefix_l by (unfold representable; lia).
  rewrite suffix_loop_stop by lia.
  rewrite Z.sub_diag, len_app.
  replace (len s + len t - len s) with (len t) by lia.
  rewrite !to_size_t_small by size_lia.
  rewrite substr_take_drop by (rewrite ?len_app; lia).
  replace (Z.to_nat (len s)) with (length s) by (unfold len; lia).
  replace (Z.to_nat (len t)) with (length t) by (unfold len; lia).
  rewrite drop_app_length, firstn_all.
  cbn [mbind outcome_bind mret outcome_ret]. unfold wire.
  by rewrite <-!app_assoc.
Qed.

Lemma encodeDelta_truncate (s t : str) :
  representable (s ++ t) → encodeDelta (s ++ t) s = Ok (wire (len s) (len t) []).
Proof.
  intros Hrep. pose proof Hrep as Hrep'.
  unfold representable in Hrep'. rewrite len_app in Hrep'.
  pose proof (len_nonneg s). pose proof (len_nonneg t).
  unfold encodeDelta.
  rewrite prefix_loop_prefix_r by done.
  rewrite suffix_loop_stop by lia.
  rewrite Z.sub_diag, len_app.
  replace (len s + len t - len s) with (len t) by lia.
  rewrite !to_size_t_small by size_lia.
  rewrite substr_take_drop by lia.
  change (Z.to_nat 0) with 0%nat. rewrite take_0.
  cbn [mbind outcome_bind mret outcome_ret]. unfold wire.
  by rewrite <-!app_assoc.
Qed.

(** X5. When the remote text is the local text followed by [t], the delta
    is a pure insertion at the end: position the length of the local text,
    delete count 0, inserted text [t]. Equal texts ([t] empty) give
    "n:0:". *)
Theorem generateDelta_append lib (self : SyncEngine) id l r (t : str) :
  localMessages self !! id = Some l →
  remoteMessages self !! id = Some r →
  content r = content l ++ t →
  representable (content r) →
  generateDelta lib id self = (Ok (wire (len (content l)) 0 t), self).
Proof.
  intros Hl Hr Ht Hrep.
  rewrite (generateDelta_present lib self id l r Hl Hr), Ht.
  rewrite encodeDelta_append; [done|by rewrite <-Ht].
Qed.

Lemma generateDelta_append_witness :
  generateDelta null_node 1
    (perform_all [AddLocal 1 (lit "syn") 1; AddRemote 1 (lit "sync") 2]
       new_engine)
  = (Ok (lit "3:0:c"),
     perform_all [AddLocal 1 (lit "syn") 1; AddRemote 1 (lit "sync") 2]
       new_engine).
Proof.
  apply (generateDelta_append null_node _ 1
           {| id := 1; content := lit "syn"; timestamp := 1;
              hash := hashMessage (lit "syn") |}
           {| id := 1; content := lit "sync"; timestamp := 2;
              hash := hashMessage (lit "sync") |} (lit "c"));
    [reflexivity | reflexivity | reflexivity | vm_compute; discriminate].
Defined.

(** X6. When the local text is the remote text followed by [t], the delta
    is a pure deletion: position the length of the remote text, delete
    count the length of [t], nothing inserted. *)
Theorem generateDelta_truncate lib (self : SyncEngine) id l r (t : str) :
  localMessages self !! id = Some l →
  remoteMessages self !! id = Some r →
  content l = content r ++ t →
  representable (content l) →
  generateDelta lib id self
  = (Ok (wire (len (content r)) (len t) []), self).
Proof.
  intros Hl Hr Ht Hrep.
  rewrite (generateDelta_present lib self id l r Hl Hr), Ht.
  rewrite encodeDelta_truncate; [done|by rewrite <-Ht].
Qed.

Lemma generateDelta_truncate_witness :
  generateDelta null_node 1
    (perform_all [AddLocal 1 (lit "sync") 1; AddRemote 1 (lit "sy") 2]
       new_engine)
  = (Ok (lit "2:2:"),
     perform_all [AddLocal 1 (lit "sync") 1; AddRemote 1 (lit "sy") 2]
       new_engine).
Proof.
  apply (generateDelta_truncate null_node _ 1
           {| id := 1; content := lit "sync"; timestamp := 1;
              hash := hashMessage (lit "sync") |}
           {| id := 1; content := lit "sy"; timestamp := 2;
              hash := hashMessage (lit "sy") |} (lit "nc"));
    [reflexivity | reflexivity | reflexivity | vm_compute; discriminate].
Defined.

(** [encodeDelta_wire] with the reasons the two loops stopped. *)
Lemma encodeDelta_trimmed (oldContent newContent : str) :
  representable oldContent → representable newContent →
  ∃ p a b : nat,
    encodeDelta oldContent newContent
    = Ok (wire (Z.of_nat p) (Z.of_nat (a - p))
            (take (b - p) (drop p newContent)))
    ∧ (p ≤ a ≤ length oldContent)%nat ∧ (p ≤ b ≤ length newContent)%nat
    ∧ take p oldContent = take p newContent
    ∧ drop a oldContent = drop b newContent
    ∧ (p = length oldContent ∨ p = length newContent
       ∨ at_ oldContent (Z.of_nat p) ≠ at_ newContent (Z.of_nat p))
    ∧ (a = p ∨ b = p
       ∨ at_ oldContent (Z.of_nat a - 1) ≠ at_ newContent (Z.of_nat b - 1)).
Proof.
  intros Hro Hrn. unfold encodeDelta.
  destruct (prefix_loop_spec (length oldContent) oldContent newContent 0)
    as (p & Hp & Hpo & Hpn & Htake & Hexit); [lia|lia|done|lia|done|].
  change (Z.of_nat 0) with 0 in Hp. rewrite Hp.
  destruct (suffix_loop_spec (length oldContent) oldContent newContent p
              (length oldContent) (length newContent))
    as (a & b & Hs & Ha & Hb & Hdrop & Hexit');
    [lia|lia|by rewrite !drop_all|lia|done|done|].
  unfold len at 1 2. rewrite Hs.
  exists p, a, b. unfold representable, len in Hro, Hrn.
  split; [|repeat split; try done; try lia].
  - rewrite !to_size_t_small by size_lia.
    rewrite substr_take_drop by (unfold len; lia).
    cbn [mbind outcome_bind mret outcome_ret]. f_equal. unfold wire.
    rewrite Nat2Z.id.
    replace (Z.of_nat a - Z.of_nat p) with (Z.of_nat (a - p)) by lia.
    replace (Z.to_nat (Z.of_nat b - Z.of_nat p)) with (b - p)%nat by lia.
    by rewrite <-!app_assoc.
  - destruct (decide (p = length oldContent)) as [|Hpo']; [by left|].
    destruct (decide (p = length newContent)) as [|Hpn']; [by right; left|].
    right; right. intros Heq.
    rewrite Heq, Ascii.eqb_refl in Hexit.
    rewrite !(proj2 (Z.ltb_lt _ _)) in Hexit; [done|unfold len; lia..].
  - destruct (decide (a = p)) as [|Hap]; [by left|].
    destruct (decide (b = p)) as [|Hbp]; [by right; left|].
    right; right. intros Heq.
    rewrite !to_size_t_small in Hexit' by size_lia.
    rewrite Heq, Ascii.eqb_refl in Hexit'.
    rewrite !(proj2 (Z.ltb_lt _ _)) in Hexit'; [done|lia..].
Qed.

(** X7. For an id in both stores [generateDelta] returns a delta
    "pos:del:ins" that describes the edit exactly: the remote text is the
    first [pos] characters of the local text, then [ins], then the local
    text from position [pos + del] on. This holds for every pair of texts
    the target can hold, also beyond [INT_MAX]. *)
Theorem generateDelta_describes_edit lib (self : SyncEngine) id l r :
  localMessages self !! id = Some l →
  remoteMessages self !! id = Some r →
  representable (content l) → representable (content r) →
  ∃ (pos del : Z) (ins : str),
    generateDelta lib id self = (Ok (wire pos del ins), self)
    ∧ 0 <= pos ∧ 0 <= del ∧ pos + del <= len (content l)
    ∧ content r
      = take (Z.to_nat pos) (content l) ++ ins
        ++ drop (Z.to_nat (pos + del)) (content l).
Proof.
  intros Hl Hr Hro Hrn.
  destruct (encodeDelta_trimmed (content l) (content r) Hro Hrn)
    as (p & a & b & Henc & Ha & Hb & Htake & Hdrop & _ & _).
  exists (Z.of_nat p), (Z.of_nat (a - p)), (take (b - p) (drop p (content r))).
  split; [by rewrite (generateDelta_present lib self id l r Hl Hr), Henc|].
  split; [lia|]. split; [lia|]. split; [unfold len; lia|].
  rewrite Nat2Z.id.
  replace (Z.to_nat (Z.of_nat p + Z.of_nat (a - p))) with a by lia.
  rewrite Htake, Hdrop.
  rewrite <-(take_drop p (content r)) at 1. f_equal.
  rewrite <-(take_drop (b - p) (drop p (content r))) at 1. f_equal.
  rewrite drop_drop. f_equal. lia.
Qed.

Lemma generateDelta_describes_edit_witness :
  ∃ (pos del : Z) (ins : str),
    generateDelta null_node 1 scenario = (Ok (wire pos del ins), scenario)
    ∧ 0 <= pos ∧ 0 <= del ∧ pos + del <= len (lit "hello")
    ∧ lit "hallo"
      = take (Z.to_nat pos) (lit "hello") ++ ins
        ++ drop (Z.to_nat (pos + del)) (lit "hello").
Proof.
  apply (generateDelta_describes_edit null_node scenario 1
           {| id := 1; content := lit "hello"; timestamp := 100;
              hash := hashMessage (lit "hello") |}
           {| id := 1; content := lit "hallo"; timestamp := 200;
              hash := hashMessage (lit "hallo") |});
    [reflexivity | reflexivity | vm_compute; discriminate
    | vm_compute; discriminate].
Defined.

(** X8. The delta is trimmed on both sides. The position is the length of
    the longest common prefix: it is the end of one of the texts or the
    two texts differ there. The kept suffix is as long as the prefix
    allows: nothing is deleted, or nothing is inserted, or the last deleted
    and the last inserted character differ. *)
Theorem generateDelta_trimmed lib (self : SyncEngine) id l r :
  localMessages self !! id = Some l →
  remoteMessages self !! id = Some r →
  representable (content l) → representable (content r) →
  ∃ (pos del : Z) (ins : str),
    generateDelta lib id self = (Ok (wire pos del ins), self)
    ∧ take (Z.to_nat pos) (content l) = take (Z.to_nat pos) (content r)
    ∧ (pos = len (content l) ∨ pos = len (content r)
       ∨ at_ (content l) pos ≠ at_ (content r) pos)
    ∧ (del = 0 ∨ ins = []
       ∨ at_ (content l) (pos + del - 1) ≠ at_ (content r) (pos + len ins - 1)).
Proof.
  intros Hl Hr Hro Hrn.
  destruct (encodeDelta_trimmed (content l) (content r) Hro Hrn)
    as (p & a & b & Henc & Ha & Hb & Htake & Hdrop & Hpre & Hsuf).
  exists (Z.of_nat p), (Z.of_nat (a - p)), (take (b - p) (drop p (content r))).
  split; [by rewrite (generateDelta_present lib self id l r Hl Hr), Henc|].
  split; [by rewrite Nat2Z.id|]. split.
  - destruct Hpre as [->|[->|Hne]]; [by left|by right; left|by right; right].
  - destruct Hsuf as [->|[->|Hne]].
    + left. by rewrite Nat.sub_diag.
    + right; left. by rewrite Nat.sub_diag.
    + right; right.
      replace (Z.of_nat p + Z.of_nat (a - p) - 1) with (Z.of_nat a - 1) by lia.
      replace (Z.of_nat p + len (take (b - p) (drop p (content r))) - 1)
        with (Z.of_nat b - 1); [done|].
      unfold len. rewrite length_take, length_drop. lia.
Qed.

Lemma generateDelta_trimmed_witness :
  ∃ (pos del : Z) (ins : str),
    generateDelta null_node 1 scenario = (Ok (wire pos del ins), scenario)
    ∧ take (Z.to_nat pos) (lit "hello") = take (Z.to_nat pos) (lit "hallo")
    ∧ (pos = len (lit "hello") ∨ pos = len (lit "hallo")
       ∨ at_ (lit "hello") pos ≠ at_ (lit "hallo") pos)
    ∧ (del = 0 ∨ ins = []
       ∨ at_ (lit "hello") (pos + del - 1) ≠ at_ (lit "hallo") (pos + len ins - 1)).
Proof.
  apply (generateDelta_trimmed null_node scenario 1
           {| id := 1; content := lit "hello"; timestamp := 100;
              hash := hashMessage (lit "hello") |}
           {| id := 1; content := lit "hallo"; timestamp := 200;
              hash := hashMessage (lit "hallo") |});
    [reflexivity | reflexivity | vm_compute; discriminate
    | vm_compute; discriminate].
Defined.

(** ** How the operations compose *)

Lemma addLocalMessage_run id content timestamp self :
  addLocalMessage id content timestamp self
  = (Ok (),
     {| localMessages :=
          <[id := {| id := id; content := content; timestamp := timestamp;
                     hash := hashMessage content |}]> (localMessages self);
        remoteMessages := remoteMessages self |}).
Proof. done. Qed.

Lemma addRemoteMessage_run id content timestamp self :
  addRemoteMessage id content timestamp self
  = (Ok (),
     {| localMessages := localMessages self;
        remoteMessages :=
          <[id := {| id := id; content := content; timestamp := timestamp;
                     hash := hashMessage content |}]> (remoteMessages self) |}).
Proof. done. Qed.

(** X9. Adding a record to one store and a record with the same id to the
    other, in either order and on any engine, makes [resolveConflict]
    resolve that id: the remote content wins exactly when its timestamp
    is strictly greater. *)
Theorem add_then_resolve lib (self : SyncEngine) id c t c' t' :
  let after1 := (addRemoteMessage id c' t' (addLocalMessage id c t self).2).2 in
  let after2 := (addLocalMessage id c t (addRemoteMessage id c' t' self).2).2 in
  after1 = after2
  ∧ resolveConflict lib id after1
    = (Ok {| resolved := true;
             useRemote := Some (bool_decide (t < t'));
             winner := Some (if bool_decide (t < t') then c' else c) |},
       after1).
Proof.
  cbv zeta. split; [done|].
  rewrite addLocalMessage_run, addRemoteMessage_run. cbn [snd].
  erewrite resolveConflict_present;
    [|cbn [localMessages]; apply lookup_insert_eq
     |cbn [remoteMessages]; apply lookup_insert_eq].
  cbn [timestamp content].
  destruct (Z.ltb_spec t t').
  - by rewrite bool_decide_eq_true_2.
  - rewrite bool_decide_eq_false_2; [done|lia].
Qed.

(** X10. Adding twice under one id to one store keeps the second record
    only: the engine is the one the second call alone would give. The
    other store and the other ids are not touched by an add. *)
Theorem add_overwrites (self : SyncEngine) id c1 t1 c2 t2 id' :
  (addLocalMessage id c2 t2 (addLocalMessage id c1 t1 self).2).2
  = (addLocalMessage id c2 t2 self).2
  ∧ (addRemoteMessage id c2 t2 (addRemoteMessage id c1 t1 self).2).2
    = (addRemoteMessage id c2 t2 self).2
  ∧ remoteMessages (addLocalMessage id c1 t1 self).2 = remoteMessages self
  ∧ localMessages (addRemoteMessage id c1 t1 self).2 = localMessages self
  ∧ (id ≠ id' →
     localMessages (addLocalMessage id c1 t1 self).2 !! id'
     = localMessages self !! id'
     ∧ remoteMessages (addRemoteMessage id c1 t1 self).2 !! id'
       = remoteMessages self !! id').
Proof.
  rewrite !addLocalMessage_run, !addRemoteMessage_run. cbn [snd].
  rewrite ?addLocalMessage_run, ?addRemoteMessage_run.
  cbn [snd localMessages remoteMessages]. rewrite !insert_insert_eq.
  repeat split; try done; by rewrite lookup_insert_ne.
Qed.

Lemma generateDelta_absent lib self id :
  localMessages self !! id = None ∨ remoteMessages self !! id = None →
  generateDelta lib id self = (Ok [], self).
Proof.
  intros H. unfold generateDelta, mbind, M_bind, find_in; simpl.
  rewrite !iter_eq_end.
  destruct H as [-> | ->]; simpl; [done|]. by rewrite orb_true_r.
Qed.

(** X11. After [clear], on any engine: the diff is three empty lists, the
    statistics are all zero, every id has the empty delta and no id
    resolves. *)
Theorem clear_resets lib (self : SyncEngine) id :
  let after := (clear self).2 in
  (clear self).1 = Ok ()
  ∧ calculateDiff lib after
    = (Ok {| added := []; modified := []; deleted := [] |}, after)
  ∧ getStats lib after
    = (Ok {| localCount := 0; remoteCount := 0; conflicts := 0 |}, after)
  ∧ generateDelta lib id after = (Ok [], after)
  ∧ resolveConflict lib id after
    = (Ok {| resolved := false; useRemote := None; winner := None |}, after).
Proof.
  cbv zeta. change (clear self).2 with new_engine.
  split; [done|]. split; [|split; [|split]].
  - rewrite calculateDiff_run. cbn [localMessages remoteMessages new_engine].
    by rewrite map_to_list_empty.
  - rewrite getStats_run. cbn [localMessages remoteMessages new_engine].
    by rewrite map_to_list_empty, map_size_empty.
  - apply generateDelta_absent. by left.
  - by apply resolveConflict_absent_local.
Qed.

(** ** More on the diff and the statistics *)

Lemma nil_iff_no_elem {A} (l : list A) : l = [] ↔ ∀ x, x ∉ l.
Proof.
  split; [intros -> x; apply not_elem_of_nil|].
  destruct l as [|x l]; [done|]. intros H. destruct (H x). by left.
Qed.

(** X12. The diff is empty (all three lists) exactly when the two stores
    hold the same ids and, id by id, the same hash. *)
Theorem calculateDiff_empty_iff lib (self : SyncEngine) :
  ∃ d, calculateDiff lib self = (Ok d, self)
    ∧ (added d = [] ∧ modified d = [] ∧ deleted d = []
       ↔ (∀ id, is_Some (localMessages self !! id)
                ↔ is_Some (remoteMessages self !! id))
         ∧ (∀ id l r, localMessages self !! id = Some l →
                      remoteMessages self !! id = Some r →
                      hash l = hash r)).
Proof.
  eexists. split; [apply calculateDiff_run|].
  pose proof (calculateDiff_run lib self) as Hrun.
  rewrite !nil_iff_no_elem.
  setoid_rewrite (elem_of_added _ _ _ _ Hrun).
  setoid_rewrite (elem_of_modified _ _ _ _ Hrun).
  setoid_rewrite (elem_of_deleted _ _ _ _ Hrun).
  split.
  - intros (Ha & Hm & Hd). split.
    + intros id. split; intros Hsome.
      * destruct (remoteMessages self !! id) eqn:Hr; [done|].
        destruct (Hd id). by split.
      * destruct (localMessages self !! id) eqn:Hl; [done|].
        destruct (Ha id). by split.
    + intros id l r Hl Hr.
      destruct (decide (hash l = hash r)) as [|Hne]; [done|].
      destruct (Hm id). eauto.
  - intros [Hdom Hhash]. repeat split; intros id.
    + intros [Hr Hl]. apply Hdom in Hr as [l Hl']. congruence.
    + intros (l & r & Hl & Hr & Hne). apply Hne. by eapply Hhash.
    + intros [Hl Hr]. apply Hdom in Hl as [r Hr']. congruence.
Qed.

Lemma filter_three_way (other : gmap Z Message) (l : list (Z * Message)) :
  length l
  = (length (filter (absent_from other) l)
     + length (filter (differs_from other) l)
     + length (filter (unchanged_in other) l))%nat.
Proof.
  induction l as [|[id msg] l IH]; [done|].
  rewrite !filter_cons. simpl length at 1. rewrite IH.
  destruct (other !! id) as [o|] eqn:Hid.
  - rewrite (decide_False (P := absent_from _ _))
      by (unfold absent_from; simpl; congruence).
    destruct (decide (hash o = hash msg)) as [Heq|Hne].
    + rewrite (decide_False (P := differs_from _ _))
        by (unfold differs_from; simpl; rewrite Hid; tauto).
      rewrite (decide_True (P := unchanged_in _ _))
        by (unfold unchanged_in; simpl; by rewrite Hid).
      simpl length. lia.
    + rewrite (decide_True (P := differs_from _ _))
        by (unfold differs_from; simpl; by rewrite Hid).
      rewrite (decide_False (P := unchanged_in _ _))
        by (unfold unchanged_in; simpl; by rewrite Hid).
      simpl length. lia.
  - rewrite (decide_True (P := absent_from _ _)) by done.
    rewrite (decide_False (P := differs_from _ _))
      by (unfold differs_from; simpl; rewrite Hid; tauto).
    rewrite (decide_False (P := unchanged_in _ _))
      by (unfold unchanged_in; simpl; rewrite Hid; tauto).
    simpl length. lia.
Qed.

Lemma unchanged_ids_agree (local remote : gmap Z Message) :
  (filter (unchanged_in remote) (map_to_list local)).*1
  ≡ₚ (filter (unchanged_in local) (map_to_list remote)).*1.
Proof.
  apply NoDup_Permutation; [apply NoDup_filtered_ids..|].
  intros id. rewrite !elem_of_filtered_ids. unfold unchanged_in; simpl. split.
  - intros (l & Hl & Hd). destruct (remote !! id) as [r|]; [|done].
    exists r. by rewrite Hl.
  - intros (r & Hr & Hd). destruct (local !! id) as [l|]; [|done].
    exists l. by rewrite Hr.
Qed.

(** X13. The diff accounts for every record. Let [same] be the ids held
    by both stores with equal hashes, each listed once. The local store
    holds [deleted + modified + same] records and the remote store
    [added + modified + same]. *)
Theorem calculateDiff_accounts lib (self : SyncEngine) :
  ∃ d (same : list Z),
    calculateDiff lib self = (Ok d, self)
    ∧ NoDup same
    ∧ (∀ id, id ∈ same
         ↔ ∃ l r, localMessages self !! id = Some l
                  ∧ remoteMessages self !! id = Some r ∧ hash l = hash r)
    ∧ size (localMessages self)
      = (length (deleted d) + length (modified d) + length same)%nat
    ∧ size (remoteMessages self)
      = (length (added d) + length (modified d) + length same)%nat.
Proof.
  eexists _, (filter (unchanged_in (localMessages self))
                (map_to_list (remoteMessages self))).*1.
  split; [apply calculateDiff_run|]. cbn [added modified deleted].
  split; [apply NoDup_filtered_ids|]. split.
  { intros id. rewrite elem_of_filtered_ids. unfold unchanged_in; simpl. split.
    - intros (r & Hr & Hd). destruct (localMessages self !! id) as [l|]; [|done].
      eauto.
    - intros (l & r & Hl & Hr & Heq). exists r. by rewrite Hl. }
  rewrite !length_fmap, <-!length_map_to_list. split.
  - rewrite (filter_three_way (remoteMessages self)
               (map_to_list (localMessages self))).
    rewrite <-(length_fmap fst (filter (differs_from (remoteMessages self)) _)).
    rewrite (Permutation_length (conflicting_ids_agree _ _)).
    rewrite <-(length_fmap fst (filter (unchanged_in (remoteMessages self)) _)).
    rewrite (Permutation_length (unchanged_ids_agree _ _)).
    by rewrite !length_fmap.
  - apply filter_three_way.
Qed.

(** X14. [getStats] never reports more conflicts than either store holds
    records, and while a store holds at most [INT_MAX] records its count is
    the number of its ids. *)
Theorem getStats_counts lib (self : SyncEngine) :
  ∃ stats,
    getStats lib self = (Ok stats, self)
    ∧ 0 <= conflicts stats <= Z.of_nat (size (localMessages self))
    ∧ conflicts stats <= Z.of_nat (size (remoteMessages self))
    ∧ (Z.of_nat (size (localMessages self)) <= INT_MAX →
       localCount stats = Z.of_nat (size (localMessages self)))
    ∧ (Z.of_nat (size (remoteMessages self)) <= INT_MAX →
       remoteCount stats = Z.of_nat (size (remoteMessages self))).
Proof.
  eexists. split; [apply getStats_run|]. cbn [conflicts localCount remoteCount].
  pose proof (filter_three_way (remoteMessages self)
                (map_to_list (localMessages self))) as Hl.
  pose proof (filter_three_way (localMessages self)
                (map_to_list (remoteMessages self))) as Hr.
  rewrite !length_map_to_list in Hl, Hr.
  pose proof (Permutation_length (conflicting_ids_agree (localMessages self)
                                    (remoteMessages self))) as Hperm.
  rewrite !length_fmap in Hperm.
  repeat split; try lia.
  - intros ?. apply to_int_small. unfold INT_MIN. lia.
  - intros ?. apply to_int_small. unfold INT_MIN. lia.
Qed.

(** ** Engines built through the interface *)

Lemma ids_ok_perform op self : ids_ok self → ids_ok (perform op self).2.
Proof.
  intros Hself. destruct op as [id content timestamp|id content timestamp|];
    intros c key msg; destruct c; simpl;
    rewrite ?lookup_empty; try done; try apply (Hself LocalMessages);
    try apply (Hself RemoteMessages).
  - rewrite lookup_insert. case_decide; [|apply (Hself LocalMessages)].
    by intros [= <-].
  - rewrite lookup_insert. case_decide; [|apply (Hself RemoteMessages)].
    by intros [= <-].
Qed.

(** X15. After any sequence of [addLocalMessage], [addRemoteMessage] and
    [clear] calls on a fresh engine, every record of either store is
    stored under its own [id] field. *)
Theorem record_ids_invariant (ops : list mutation) :
  ids_ok (perform_all ops new_engine).
Proof.
  induction ops as [|op ops IH] using rev_ind.
  - intros [] key msg; simpl; by rewrite lookup_empty.
  - rewrite perform_all_snoc. by apply ids_ok_perform.
Qed.

Lemma fingerprints_ok_perform_all ops self :
  fingerprints_ok self → fingerprints_ok (perform_all ops self).
Proof.
  revert self. induction ops as [|op ops IH]; intros self Hself; [done|].
  apply IH. by apply fingerprints_ok_perform.
Qed.

(** X16. On an engine built through the interface, an id reported as
    modified does hold two different texts: the diff never reports a
    change where the contents are equal. *)
Theorem modified_contents_differ lib (ops : list mutation) :
  let self := perform_all ops new_engine in
  ∃ d, calculateDiff lib self = (Ok d, self)
    ∧ ∀ id, id ∈ modified d →
        ∃ l r, localMessages self !! id = Some l
               ∧ remoteMessages self !! id = Some r
               ∧ content l ≠ content r.
Proof.
  cbv zeta. eexists. split; [apply calculateDiff_run|].
  pose proof (calculateDiff_run lib (perform_all ops new_engine)) as Hrun.
  pose proof (fingerprints_ok_perform_all ops new_engine fingerprints_ok_new)
    as Hfp.
  intros id (l & r & Hl & Hr & Hne)%(elem_of_modified _ _ _ _ Hrun).
  exists l, r. repeat split; [done..|].
  intros Heq. apply Hne.
  rewrite (Hfp LocalMessages id l Hl), (Hfp RemoteMessages id r Hr).
  by rewrite Heq.
Qed.

(** X17. Patching converges. On an engine built through the interface,
    for an id in both stores whose local text fits [int]: apply the delta
    of that id to the local text and store the result locally; the id is
    then in none of the three lists of the diff. *)
Theorem patch_converges lib (ops : list mutation) id l r t :
  let self := perform_all ops new_engine in
  localMessages self !! id = Some l →
  remoteMessages self !! id = Some r →
  len (content l) <= INT_MAX →
  representable (content r) →
  ∃ delta patched d,
    generateDelta lib id self = (Ok delta, self)
    ∧ applyDelta (content l) delta self = (Ok patched, self)
    ∧ calculateDiff lib (addLocalMessage id patched t self).2
      = (Ok d, (addLocalMessage id patched t self).2)
    ∧ (id ∉ added d) ∧ (id ∉ modified d) ∧ (id ∉ deleted d).
Proof.
  cbv zeta. intros Hl Hr Hint Hrep.
  destruct (codec_roundtrip (content l) (content r) Hint Hrep)
    as (delta & Henc & Hdec).
  pose proof (fingerprints_ok_perform_all ops new_engine fingerprints_ok_new
                RemoteMessages id r Hr) as Hfp.
  eexists delta, (content r), _.
  split; [by rewrite (generateDelta_present _ _ _ _ _ Hl Hr), Henc|].
  split; [unfold applyDelta, lift; by rewrite Hdec|].
  split; [apply calculateDiff_run|].
  pose proof (calculateDiff_run lib
                (addLocalMessage id (content r) t
                   (perform_all ops new_engine)).2) as Hrun.
  rewrite (elem_of_added _ _ _ _ Hrun), (elem_of_modified _ _ _ _ Hrun),
    (elem_of_deleted _ _ _ _ Hrun).
  rewrite addLocalMessage_run. cbn [snd localMessages remoteMessages].
  rewrite lookup_insert_eq, Hr.
  repeat split.
  - by intros [_ ?].
  - intros (l' & r' & [= <-] & [= <-] & Hne). by apply Hne.
  - by intros [_ ?].
Qed.

Lemma patch_converges_witness :
  ∃ delta patched d,
    generateDelta null_node 1 scenario = (Ok delta, scenario)
    ∧ applyDelta (lit "hello") delta scenario = (Ok patched, scenario)
    ∧ calculateDiff null_node (addLocalMessage 1 patched 300 scenario).2
      = (Ok d, (addLocalMessage 1 patched 300 scenario).2)
    ∧ (1 ∉ added d) ∧ (1 ∉ modified d) ∧ (1 ∉ deleted d).
Proof.
  apply (patch_converges null_node
           [AddLocal 1 (lit "hello") 100; AddRemote 1 (lit "hallo") 200] 1
           {| id := 1; content := lit "hello"; timestamp := 100;
              hash := hashMessage (lit "hello") |}
           {| id := 1; content := lit "hallo"; timestamp := 200;
              hash := hashMessage (lit "hallo") |} 300);
    [reflexivity | reflexivity | vm_compute; discriminate
    | vm_compute; discriminate].
Defined.

(** X18. The diff can miss a change: there are two different texts with
    the same hash ("az" and "bY"), and with one stored locally and the
    other remotely under one id, on any engine, that id is in none of the
    three lists of the diff, although its delta is not the empty edit. *)
Theorem diff_misses_collision :
  ∃ c1 c2 : str,
    c1 ≠ c2 ∧ hashMessage c1 = hashMessage c2
    ∧ ∀ lib (self : SyncEngine) id t1 t2,
        let after :=
          (addRemoteMessage id c2 t2 (addLocalMessage id c1 t1 self).2).2 in
        ∃ d, calculateDiff lib after = (Ok d, after)
          ∧ (id ∉ added d) ∧ (id ∉ modified d) ∧ (id ∉ deleted d)
          ∧ generateDelta lib id after = (Ok (lit "0:2:bY"), after).
Proof.
  exists (lit "az"), (lit "bY").
  split; [done|]. split; [reflexivity|].
  intros lib self id t1 t2. cbv zeta.
  eexists. split; [apply calculateDiff_run|].
  set (after := (addRemoteMessage id (lit "bY") t2
                   (addLocalMessage id (lit "az") t1 self).2).2).
  pose proof (calculateDiff_run lib after) as Hrun.
  rewrite (elem_of_added _ _ _ _ Hrun), (elem_of_modified _ _ _ _ Hrun),
    (elem_of_deleted _ _ _ _ Hrun).
  assert (localMessages after !! id
          = Some {| id := id; content := lit "az"; timestamp := t1;
                    hash := hashMessage (lit "az") |}) as Hl
    by apply lookup_insert_eq.
  assert (remoteMessages after !! id
          = Some {| id := id; content := lit "bY"; timestamp := t2;
                    hash := hashMessage (lit "bY") |}) as Hr
    by apply lookup_insert_eq.
  rewrite Hl, Hr. repeat split.
  - by intros [_ ?].
  - intros (l' & r' & [= <-] & [= <-] & Hne). by apply Hne.
  - by intros [_ ?].
  - by rewrite (generateDelta_present _ _ _ _ _ Hl Hr).
Qed.

(** ** [editDistance] *)

Lemma foldl_seqZ_S {A} (f : A → Z → A) (a : A) (start : Z) (k : nat) :
  foldl f a (seqZ start (Z.of_nat (S k)))
  = f (foldl f a (seqZ start (Z.of_nat k))) (start + Z.of_nat k).
Proof.
  unfold seqZ. rewrite !Nat2Z.id, seq_S, fmap_app, foldl_app. simpl.
  f_equal. lia.
Qed.

Lemma dp_get_set_ne dp (i j i' j' : nat) v :
  (i, j) ≠ (i', j') →
  dp_get (dp_set dp (Z.of_nat i) (Z.of_nat j) v) (Z.of_nat i') (Z.of_nat j')
  = dp_get dp (Z.of_nat i') (Z.of_nat j').
Proof.
  intros Hne. unfold dp_get, dp_set. rewrite !Nat2Z.id.
  destruct (decide (i = i')) as [<-|Hi].
  - destruct (decide (i < length dp)%nat) as [Hlt|Hge].
    + rewrite !nth_lookup, list_lookup_insert_eq by done. simpl.
      rewrite <-!nth_lookup, !nth_lookup.
      rewrite list_lookup_insert_ne by congruence. done.
    + by rewrite list_insert_ge by lia.
  - rewrite !(nth_lookup _ i'), list_lookup_insert_ne by done. done.
Qed.

Lemma dp_get_set_eq dp (i j : nat) v :
  (i < length dp)%nat → (j < length (nth i dp []))%nat →
  dp_get (dp_set dp (Z.of_nat i) (Z.of_nat j) v) (Z.of_nat i) (Z.of_nat j) = v.
Proof.
  intros Hi Hj. unfold dp_get, dp_set. rewrite !Nat2Z.id.
  rewrite (nth_lookup _ i), list_lookup_insert_eq by done. simpl.
  rewrite nth_lookup, list_lookup_insert_eq by done. done.
Qed.

Lemma dp_shape_set M N dp (i j : nat) v :
  dp_shape M N dp → dp_shape M N (dp_set dp (Z.of_nat i) (Z.of_nat j) v).
Proof.
  intros [Hrows Hcols]. unfold dp_set. rewrite !Nat2Z.id. split.
  - by rewrite length_insert.
  - intros a Ha. destruct (decide (a = i)) as [->|Hne].
    + rewrite nth_lookup, list_lookup_insert_eq by lia. simpl.
      rewrite length_insert. by apply Hcols.
    + rewrite nth_lookup, list_lookup_insert_ne by done.
      rewrite <-nth_lookup. by apply Hcols.
Qed.

Lemma dp_filled_set s1 s2 M N dp (i j : nat) (P P' : nat → nat → Prop) v :
  dp_shape M N dp → (i ≤ M)%nat → (j ≤ N)%nat →
  dp_filled s1 s2 M N dp P →
  v = lev s1 s2 i j →
  (∀ a b, P' a b → P a b ∨ (a = i ∧ b = j)) →
  dp_filled s1 s2 M N (dp_set dp (Z.of_nat i) (Z.of_nat j) v) P'.
Proof.
  intros [Hrows Hcols] Hi Hj Hfilled -> Hgrow a b Ha Hb HP'.
  destruct (decide ((i, j) = (a, b))) as [[= <- <-]|Hne].
  - apply dp_get_set_eq; [lia|]. rewrite Hcols by done. lia.
  - rewrite dp_get_set_ne by done.
    destruct (Hgrow a b HP') as [HP|[-> ->]]; [by apply Hfilled|done].
Qed.

(** *** The recurrence *)

Lemma lev_S_S s1 s2 i j :
  lev s1 s2 (S i) (S j)
  = if Ascii.eqb (nth i s1 zero) (nth j s2 zero) then lev s1 s2 i j
    else 1 + Z.min (lev s1 s2 i (S j))
               (Z.min (lev s1 s2 (S i) j) (lev s1 s2 i j)).
Proof. done. Qed.

Lemma lev_S_0 s1 s2 i : lev s1 s2 (S i) 0 = Z.of_nat (S i).
Proof. done. Qed.

Lemma lev_bounds s1 s2 i j :
  Z.abs (Z.of_nat i - Z.of_nat j) <= lev s1 s2 i j
  <= Z.max (Z.of_nat i) (Z.of_nat j).
Proof.
  revert j. induction i as [|i IHi]; intros j; [simpl; lia|].
  induction j as [|j IHj]; [rewrite lev_S_0; lia|].
  rewrite lev_S_S.
  pose proof (IHi j). pose proof (IHi (S j)).
  destruct (Ascii.eqb _ _); lia.
Qed.

Lemma lev_diag s i : lev s s i i = 0.
Proof.
  induction i as [|i IH]; [done|].
  by rewrite lev_S_S, Ascii.eqb_refl.
Qed.

Lemma lev_sym s1 s2 i j : lev s1 s2 i j = lev s2 s1 j i.
Proof.
  revert j. induction i as [|i IHi]; intros j; [by destruct j|].
  induction j as [|j IHj]; [done|].
  rewrite !lev_S_S, Ascii.eqb_sym, IHj, !IHi.
  destruct (Ascii.eqb _ _); lia.
Qed.

Lemma lev_zero s1 s2 i j :
  (i ≤ length s1)%nat → (j ≤ length s2)%nat →
  lev s1 s2 i j = 0 → take i s1 = take j s2.
Proof.
  revert j. induction i as [|i IHi]; intros j Hi Hj.
  { simpl. intros Hz. by replace j with 0%nat by lia. }
  destruct j as [|j]; [rewrite lev_S_0; lia|].
  rewrite lev_S_S.
  pose proof (lev_bounds s1 s2 i j). pose proof (lev_bounds s1 s2 i (S j)).
  pose proof (lev_bounds s1 s2 (S i) j).
  destruct (Ascii.eqb_spec (nth i s1 zero) (nth j s2 zero)) as [Heq|]; [|lia].
  intros Hz.
  rewrite (take_S_r s1 i (nth i s1 zero)), (take_S_r s2 j (nth j s2 zero)).
  - rewrite (IHi j) by (done || lia). by rewrite Heq.
  - destruct (nth_lookup_or_length s2 j zero); [done|lia].
  - destruct (nth_lookup_or_length s1 i zero); [done|lia].
Qed.

(** *** The loops fill the table *)

Section edit_distance_loops.
Variables s1 s2 : str.
Variables M N : nat.
Hypothesis HM : Z.of_nat M < INT_MAX.
Hypothesis HN : Z.of_nat N < INT_MAX.

Lemma dp_shape_initial :
  dp_shape M N (replicate (S M) (replicate (S N) 0)).
Proof using Type.
  split; [by rewrite length_replicate|].
  intros i Hi. rewrite nth_lookup, lookup_replicate_2 by lia.
  apply length_replicate.
Qed.

(** [for (int i = 0; i <= m; i++) dp[i][0] = i;] after [k] rounds *)
Lemma first_column dp (k : nat) :
  (k ≤ S M)%nat → dp_shape M N dp →
  let dp' := foldl (λ dp i, dp_set dp i 0 i) dp (seqZ 0 (Z.of_nat k)) in
  dp_shape M N dp'
  ∧ dp_filled s1 s2 M N dp' (λ a b, b = 0%nat ∧ (a < k)%nat).
Proof using Type.
  intros Hk Hshape. cbv zeta. induction k as [|k IH].
  - split; [done|]. intros a b _ _ [_ ?]. lia.
  - destruct IH as [IHs IHf]; [lia|].
    rewrite foldl_seqZ_S, Z.add_0_l. split.
    + by apply (dp_shape_set M N _ k 0%nat).
    + apply (dp_filled_set s1 s2 M N _ k 0%nat
               (λ a b, b = 0%nat ∧ (a < k)%nat)); [done|lia|lia|done| |].
      * by destruct k.
      * intros a b [-> Ha]. destruct (decide (a = k)); [by right|left].
        split; [done|lia].
Qed.

(** [for (int j = 0; j <= n; j++) dp[0][j] = j;] after [k] rounds *)
Lemma first_row dp (k : nat) :
  (k ≤ S N)%nat → dp_shape M N dp →
  dp_filled s1 s2 M N dp (λ a b, b = 0%nat) →
  let dp' := foldl (λ dp j, dp_set dp 0 j j) dp (seqZ 0 (Z.of_nat k)) in
  dp_shape M N dp'
  ∧ dp_filled s1 s2 M N dp' (λ a b, b = 0%nat ∨ (a = 0%nat ∧ (b < k)%nat)).
Proof using Type.
  intros Hk Hshape Hfilled. cbv zeta. induction k as [|k IH].
  - split; [done|]. intros a b Ha Hb [->|[_ ?]]; [by apply Hfilled|lia].
  - destruct IH as [IHs IHf]; [lia|].
    rewrite foldl_seqZ_S, Z.add_0_l. split.
    + by apply (dp_shape_set M N _ 0%nat k).
    + apply (dp_filled_set s1 s2 M N _ 0%nat k
               (λ a b, b = 0%nat ∨ (a = 0%nat ∧ (b < k)%nat)));
        [done|lia|lia|done|done|].
      intros a b [->|[-> Hb]]; [by left; left|].
      destruct (decide (b = k)); [by right|left; right].
      split; [done|lia].
Qed.

(** One round of the inner loop writes the final value of its cell. *)
Lemma edit_cell_spec dp (k c : nat) (P : nat → nat → Prop) :
  (S k ≤ M)%nat → (S c ≤ N)%nat →
  dp_filled s1 s2 M N dp P → P k c → P k (S c) → P (S k) c →
  edit_cell s1 s2 (Z.of_nat (S k)) dp (Z.of_nat (S c))
  = dp_set dp (Z.of_nat (S k)) (Z.of_nat (S c)) (lev s1 s2 (S k) (S c)).
Proof using HM HN.
  intros Hk Hc Hfilled H00 H01 H10. unfold edit_cell.
  replace (Z.of_nat (S k) - 1) with (Z.of_nat k) by lia.
  replace (Z.of_nat (S c) - 1) with (Z.of_nat c) by lia.
  rewrite !to_size_t_small by size_lia.
  unfold at_. rewrite !Nat2Z.id.
  rewrite (Hfilled k c), (Hfilled k (S c)), (Hfilled (S k) c) by (done || lia).
  rewrite lev_S_S.
  pose proof (lev_bounds s1 s2 k c). pose proof (lev_bounds s1 s2 k (S c)).
  pose proof (lev_bounds s1 s2 (S k) c).
  destruct (Ascii.eqb _ _); [done|].
  by rewrite to_int_small by size_lia.
Qed.

(** The inner loop on row [k + 1], after [c] rounds *)
Lemma fill_row dp (k c : nat) :
  (S k ≤ M)%nat → (c ≤ N)%nat → dp_shape M N dp →
  dp_filled s1 s2 M N dp (λ a b, (a ≤ k)%nat ∨ b = 0%nat) →
  let dp' := foldl (edit_cell s1 s2 (Z.of_nat (S k))) dp (seqZ 1 (Z.of_nat c)) in
  dp_shape M N dp'
  ∧ dp_filled s1 s2 M N dp'
      (λ a b, (a ≤ k)%nat ∨ b = 0%nat ∨ (a = S k ∧ (b ≤ c)%nat)).
Proof using HM HN.
  intros Hk Hc Hshape Hfilled. cbv zeta. induction c as [|c IH].
  - split; [done|].
    intros a b Ha Hb Hab. apply Hfilled; [done..|].
    destruct Hab as [?|[?|[_ ?]]]; [by left|by right|right; lia].
  - destruct IH as [IHs IHf]; [lia|].
    rewrite foldl_seqZ_S.
    replace (1 + Z.of_nat c) with (Z.of_nat (S c)) by lia.
    rewrite (edit_cell_spec _ k c _ Hk Hc IHf);
      [|left; lia|left; lia|right; right; split; [done|lia]].
    split; [by apply dp_shape_set|].
    eapply (dp_filled_set s1 s2 M N _ (S k) (S c));
      [exact IHs|lia|lia|exact IHf|done|].
    cbv beta.
    intros a b [?|[?|[-> Hb]]]; [by left; left|by left; right; left|].
    destruct (decide (b = S c)); [by right|left; right; right].
    split; [done|lia].
Qed.

(** The outer loop, after [k] rounds *)
Lemma fill_table dp (k : nat) :
  (k ≤ M)%nat → dp_shape M N dp →
  dp_filled s1 s2 M N dp (λ a b, a = 0%nat ∨ b = 0%nat) →
  let dp' :=
    foldl (λ dp i, foldl (edit_cell s1 s2 i) dp (seqZ 1 (Z.of_nat N))) dp
      (seqZ 1 (Z.of_nat k)) in
  dp_shape M N dp'
  ∧ dp_filled s1 s2 M N dp' (λ a b, (a ≤ k)%nat ∨ b = 0%nat).
Proof using HM HN.
  intros Hk Hshape Hfilled. cbv zeta. induction k as [|k IH].
  - split; [done|].
    intros a b Ha Hb Hab. apply Hfilled; [done..|].
    destruct Hab as [?|?]; [left; lia|by right].
  - destruct IH as [IHs IHf]; [lia|].
    rewrite foldl_seqZ_S.
    replace (1 + Z.of_nat k) with (Z.of_nat (S k)) by lia.
    destruct (fill_row _ k N Hk ltac:(lia) IHs IHf) as [Hs Hf].
    split; [done|].
    intros a b Ha Hb Hab. apply Hf; [done..|].
    destruct Hab as [Hle|?]; [|by right; left].
    destruct (decide (a = S k)); [right; right; by split|left; lia].
Qed.

End edit_distance_loops.

(** [editDistance] returns the value of the recurrence at the two
    lengths. *)
Lemma editDistance_lev (s1 s2 : str) :
  len s1 < INT_MAX → len s2 < INT_MAX →
  editDistance s1 s2 = lev s1 s2 (length s1) (length s2).
Proof.
  intros H1 H2. unfold editDistance.
  pose proof (len_nonneg s1). pose proof (len_nonneg s2).
  rewrite !(to_int_small (len _)) by size_lia.
  rewrite !(to_int_small (len _ + 1)) by size_lia.
  rewrite !to_size_t_small by size_lia.
  replace (Z.to_nat (len s1 + 1)) with (S (length s1)) by (unfold len; lia).
  replace (Z.to_nat (len s2 + 1)) with (S (length s2)) by (unfold len; lia).
  replace (len s1 + 1) with (Z.of_nat (S (length s1))) by (unfold len; lia).
  replace (len s2 + 1) with (Z.of_nat (S (length s2))) by (unfold len; lia).
  unfold len in *.
  destruct (first_column s1 s2 (length s1) (length s2) _ (S (length s1))
              ltac:(lia) (dp_shape_initial _ _)) as [Hs1 Hf1].
  destruct (first_row s1 s2 (length s1) (length s2) _ (S (length s2))
              ltac:(lia) Hs1) as [Hs2 Hf2].
  { intros a b Ha Hb ->. apply Hf1; [done..|]. split; [done|lia]. }
  destruct (fill_table s1 s2 (length s1) (length s2) H1 H2 _ (length s1)
              ltac:(lia) Hs2) as [Hs3 Hf3].
  { intros a b Ha Hb Hab. apply Hf2; [done..|].
    destruct Hab as [-> | ->]; [right; split; [done|lia]|by left]. }
  apply Hf3; [done..|]. by left.
Qed.

Lemma lev_0_r s1 s2 i : lev s1 s2 i 0 = Z.of_nat i.
Proof. by destruct i. Qed.

(** X19. The distance to the empty text, from either side, is the length
    of the other text. *)
Theorem editDistance_empty (s : str) :
  len s < INT_MAX →
  editDistance s [] = len s ∧ editDistance [] s = len s.
Proof.
  intros Hs. rewrite !editDistance_lev by (done || by vm_compute).
  by rewrite lev_0_r.
Qed.

Lemma editDistance_empty_witness :
  editDistance (lit "sync") [] = 4 ∧ editDistance [] (lit "sync") = 4.
Proof. apply (editDistance_empty (lit "sync")). by vm_compute. Defined.

(** X20. The distance between two texts is at least the difference of
    their lengths and at most the greater length. *)
Theorem editDistance_bounds (s1 s2 : str) :
  len s1 < INT_MAX → len s2 < INT_MAX →
  Z.abs (len s1 - len s2) <= editDistance s1 s2 <= Z.max (len s1) (len s2).
Proof.
  intros H1 H2. rewrite editDistance_lev by done. apply lev_bounds.
Qed.

Lemma editDistance_bounds_witness :
  Z.abs (len (lit "kitten") - len (lit "sitting"))
  <= editDistance (lit "kitten") (lit "sitting")
  <= Z.max (len (lit "kitten")) (len (lit "sitting")).
Proof.
  apply (editDistance_bounds (lit "kitten") (lit "sitting")); by vm_compute.
Defined.

(** X21. The distance is zero exactly when the two texts are equal. *)
Theorem editDistance_zero_iff (s1 s2 : str) :
  len s1 < INT_MAX → len s2 < INT_MAX →
  editDistance s1 s2 = 0 ↔ s1 = s2.
Proof.
  intros H1 H2. split.
  - rewrite editDistance_lev by done. intros Hz.
    apply lev_zero in Hz; [|done..]. by rewrite !firstn_all in Hz.
  - intros <-. rewrite editDistance_lev by done. apply lev_diag.
Qed.

Lemma editDistance_zero_iff_witness :
  editDistance (lit "hello") (lit "hello") = 0 ↔ lit "hello" = lit "hello".
Proof.
  apply (editDistance_zero_iff (lit "hello") (lit "hello")); by vm_compute.
Defined.

(** X22. The distance is symmetric. *)
Theorem editDistance_sym (s1 s2 : str) :
  len s1 < INT_MAX → len s2 < INT_MAX →
  editDistance s1 s2 = editDistance s2 s1.
Proof.
  intros H1 H2. rewrite !editDistance_lev by done. apply lev_sym.
Qed.

Lemma editDistance_sym_witness :
  editDistance (lit "flaw") (lit "lawn") = editDistance (lit "lawn") (lit "flaw").
Proof. apply (editDistance_sym (lit "flaw") (lit "lawn")); by vm_compute. Defined.
